(** * HTTP/3 DATA framing over a raw QUIC stream

    A shallow embedding of the framing layer of the HTTP/3 example server
    ([dataFrame], [byteReaderImpl], [RWStreamImp] and their methods), with the
    variable-length integer codec it calls and the raw conduit it runs on.

    Layout:
    - bytes, Go errors and a small state monad for the conduit;
    - the variable-length integer codec ([encode], [decode]);
    - the conduit interface ([Stream], Go's [quic.Stream]) and two conduits;
    - [dataFrame.Write], [byteReaderImpl.ReadByte], [RWStreamImp.Write],
      [RWStreamImp.Read], [RWStreamImp.Close], [NewRWStream];
    - the server's handler [ServeHTTP];
    - the theorems. *)

From Stdlib Require Import ZArith List Bool Lia.
From Stdlib.Strings Require Import Byte.
Import ListNotations.
Local Open Scope Z_scope.

(** ** Bytes *)

Definition byte_to_Z (b : byte) : Z := Z.of_N (Byte.to_N b).

(** Go's conversion [uint8(x)]: the low eight bits of [x]. *)
Definition uint8 (x : Z) : byte :=
  match Byte.of_N (Z.to_N (x mod 256)) with
  | Some b => b
  | None => x00
  end.

(** [uint64(len(p))]: [len(p)] is a non-negative [int], below [2^63], and the
    conversion to [uint64] keeps such a value as it is. *)
Definition uint64_len (p : list byte) : Z := Z.of_nat (length p).

(** ** Errors

    Go's [error] values that can reach a caller of the framed stream. *)
Inductive error : Type :=
| io_EOF                          (* io.EOF: clean end-of-data of the conduit *)
| ConduitError (code : N)         (* any other error the conduit reports *)
| RangeError                      (* codec: value does not fit into 62 bits *)
| TruncatedInput                  (* codec: end-of-data inside an integer *)
| IncorrectFrameType (t : Z).     (* fmt.Errorf("Incorrect HTTP3 frame type! ... Got: %x", t) *)

Inductive result (A : Type) : Type :=
| Ok (a : A)
| Err (e : error).
Arguments Ok {A} a.
Arguments Err {A} e.

(** A Go call either returns or panics. *)
Inductive outcome (A : Type) : Type :=
| Returns (a : A)
| Panics (e : error).
Arguments Returns {A} a.
Arguments Panics {A} e.

(** ** State passing

    Every method call on a conduit may change it; [St C A] is a computation
    that returns an [A] and the conduit's next state. *)
Definition St (C A : Type) : Type := C -> A * C.

Definition ret {C A : Type} (a : A) : St C A := fun s => (a, s).

Definition bind {C A B : Type} (m : St C A) (k : A -> St C B) : St C B :=
  fun s => let (a, s') := m s in k a s'.

Declare Scope st_scope.
Delimit Scope st_scope with st.
Notation "x <- m ;; k" := (bind m (fun x => k))
  (at level 61, m at next level, right associativity) : st_scope.
Notation "' pat <- m ;; k" := (bind m (fun x => match x with pat => k end))
  (at level 61, pat pattern, m at next level, right associativity) : st_scope.
Local Open Scope st_scope.

(** ** Variable-length integer codec *)

Module quicvarint.

Definition maxVarInt1 : Z := 63.
Definition maxVarInt2 : Z := 16383.
Definition maxVarInt4 : Z := 1073741823.
Definition maxVarInt8 : Z := 4611686018427387903.

(** Modelled from the spec: the codec's [encode] (the repository calls it as
    [quicvarint.Write], a package that is not part of the sources).  The
    smallest of the widths 1, 2, 4, 8 that holds the value; the width's tag
    (00, 01, 10, 11) in the two most significant bits of the first byte; the
    value in big-endian order in the remaining bits.  Values outside
    [0, 2^62-1] fail with [RangeError]. *)
Definition encode (v : Z) : result (list byte) :=
  if v <? 0 then Err RangeError
  else if v <=? maxVarInt1 then
    Ok [uint8 v]
  else if v <=? maxVarInt2 then
    Ok [uint8 (Z.lor (Z.shiftr v 8) 0x40); uint8 v]
  else if v <=? maxVarInt4 then
    Ok [uint8 (Z.lor (Z.shiftr v 24) 0x80); uint8 (Z.shiftr v 16);
        uint8 (Z.shiftr v 8); uint8 v]
  else if v <=? maxVarInt8 then
    Ok [uint8 (Z.lor (Z.shiftr v 56) 0xc0); uint8 (Z.shiftr v 48);
        uint8 (Z.shiftr v 40); uint8 (Z.shiftr v 32);
        uint8 (Z.shiftr v 24); uint8 (Z.shiftr v 16);
        uint8 (Z.shiftr v 8); uint8 v]
  else Err RangeError.

(** A byte source hands out one byte per call, Go's [io.ByteReader]: the
    byte and a nil error, or an error ([io_EOF] at end-of-data). *)
Definition ByteReader (C : Type) : Type := St C (byte * option error).

(** The [n] bytes after the first one, most significant first. *)
Fixpoint decode_rest {C : Type} (next : ByteReader C) (n : nat) (acc : Z)
  : St C (result Z) :=
  match n with
  | O => ret (Ok acc)
  | S n' =>
      '(b, err) <- next ;;
      match err with
      | Some io_EOF => ret (Err TruncatedInput)
      | Some e => ret (Err e)
      | None => decode_rest next n' (Z.lor (Z.shiftl acc 8) (byte_to_Z b))
      end
  end.

(** Modelled from the spec: the codec's [decode] (the repository calls it as
    [quicvarint.Read]).  It reads the first byte, takes the width from its
    top two bits, reads the remaining [width - 1] bytes one at a time and
    reassembles the integer; the result is the value and the number of bytes
    consumed.  An error of the source is passed on unchanged; end-of-data
    after the first byte and before the full width is [TruncatedInput]. *)
Definition decode {C : Type} (next : ByteReader C) : St C (result (Z * nat)) :=
  '(b0, err) <- next ;;
  match err with
  | Some e => ret (Err e)
  | None =>
      let width := Nat.pow 2 (Z.to_nat (Z.shiftr (byte_to_Z b0) 6)) in
      r <- decode_rest next (width - 1) (Z.land (byte_to_Z b0) 0x3f) ;;
      match r with
      | Ok v => ret (Ok (v, width))
      | Err e => ret (Err e)
      end
  end.

(** Modelled from the spec: [quicvarint.Write(b, i)], the codec's [encode]
    as the repository calls it.  It appends the encoding of [i] to the buffer; it
    has no error result, a value out of range is a panic. *)
Definition Write (b : list byte) (i : Z) : outcome (list byte) :=
  match encode i with
  | Ok bs => Returns (b ++ bs)
  | Err e => Panics e
  end.

(** Modelled from the spec: [quicvarint.Read(br)], the codec's [decode] as
    the repository calls it, with Go's [(uint64, error)] result. *)
Definition Read {C : Type} (br : ByteReader C) : St C (Z * option error) :=
  r <- decode br ;;
  match r with
  | Ok (v, _) => ret (v, None)
  | Err e => ret (0, Some e)
  end.

(** A list of bytes as a byte source: the bytes in order, then end-of-data. *)
Definition bytes_next : ByteReader (list byte) :=
  fun bs =>
    match bs with
    | [] => ((x00, Some io_EOF), [])
    | b :: bs' => ((b, None), bs')
    end.

Definition decode_bytes (bs : list byte) : result (Z * nat) * list byte :=
  decode bytes_next bs.

End quicvarint.

(** ** The raw conduit

    Go's [quic.Stream] as the framing layer uses it: [Read], [Write] and
    [Close].  [str_Read n] is a call [Read(b)] with [len(b) = n]; it returns
    the bytes stored at the front of [b] (Go's count is their number, and
    [io.Reader] asks for at most [n] of them) and the error.  [str_Write]
    returns the number of bytes accepted and the error.  [str_ReadByte] is
    the conduit's own [ReadByte] method when its dynamic type has one: that
    is what the type assertion [w.str.(byteReader)] asks. *)
Class Stream (C : Type) : Type := {
  str_Read : nat -> St C (list byte * option error);
  str_Write : list byte -> St C (nat * option error);
  str_Close : St C (option error);
  str_ReadByte : option (quicvarint.ByteReader C)
}.

(** Modelled from the spec: the raw conduit interface (the QUIC stream itself
    is not part of the sources).  An ordered, reliable byte conduit: [Read]
    fills as many bytes as are available up to the buffer's capacity, and
    reports clean end-of-data as a count of 0 with [io_EOF]; [Write] accepts
    all the bytes; [Close] is recorded.  [inbox] holds the bytes still to be
    read, [outbox] the bytes written so far, [closes] the number of [Close]
    calls received. *)
Record Pipe : Type := {
  inbox : list byte;
  outbox : list byte;
  closes : nat
}.

Definition Pipe_Read (n : nat) : St Pipe (list byte * option error) :=
  fun s =>
    match inbox s with
    | [] => ((([] : list byte), if Nat.eqb n 0 then None else Some io_EOF), s)
    | _ :: _ =>
        ((firstn n (inbox s), None),
         {| inbox := skipn n (inbox s); outbox := outbox s; closes := closes s |})
    end.

Definition Pipe_Write (p : list byte) : St Pipe (nat * option error) :=
  fun s =>
    ((length p, None),
     {| inbox := inbox s; outbox := outbox s ++ p; closes := closes s |}).

Definition Pipe_Close : St Pipe (option error) :=
  fun s =>
    (None, {| inbox := inbox s; outbox := outbox s; closes := S (closes s) |}).

#[export] Instance Pipe_Stream : Stream Pipe := {
  str_Read := Pipe_Read;
  str_Write := Pipe_Write;
  str_Close := Pipe_Close;
  str_ReadByte := None
}.

(** The pipe [s] with [bs] left to read. *)
Definition with_inbox (bs : list byte) (s : Pipe) : Pipe :=
  {| inbox := bs; outbox := outbox s; closes := closes s |}.

(** A pipe that has [bs] to deliver and nothing written. *)
Definition incoming (bs : list byte) : Pipe :=
  {| inbox := bs; outbox := []; closes := 0 |}.

(** The receiving end of a pipe: what one side wrote is what the other side
    reads. *)
Definition deliver (sender : Pipe) : Pipe := incoming (outbox sender).

(** A second conduit, for runs in which a write fails.  It has room for
    [room] more bytes: a write that does not fit is accepted as far as it
    fits and fails with an error of the conduit. *)
Record Narrow : Type := {
  accepted : list byte;
  room : nat
}.

Definition Narrow_Write (p : list byte) : St Narrow (nat * option error) :=
  fun s =>
    if Nat.leb (length p) (room s) then
      ((length p, None),
       {| accepted := accepted s ++ p; room := room s - length p |})
    else
      ((room s, Some (ConduitError 1)),
       {| accepted := accepted s ++ firstn (room s) p; room := 0 |}).

#[export] Instance Narrow_Stream : Stream Narrow := {
  str_Read := fun _ => ret ([], Some io_EOF);
  str_Write := Narrow_Write;
  str_Close := ret None;
  str_ReadByte := None
}.

(** ** The framing layer (server) *)

(** [type dataFrame struct { Length uint64 }] *)
Record dataFrame : Type := { Length : Z }.

(** [func (f *dataFrame) Write(b *bytes.Buffer)] *)
Definition dataFrame_Write (f : dataFrame) (b : list byte) : outcome (list byte) :=
  match quicvarint.Write b 0x0 with
  | Panics e => Panics e
  | Returns b' => quicvarint.Write b' (Length f)
  end.

(** [type RWStreamImp struct { str quic.Stream }] *)
Record RWStreamImp (C : Type) : Type := { str : C }.
Arguments Build_RWStreamImp {C} str.
Arguments str {C} r.

(** A method call [w.str.m(...)] on the conduit the stream owns. *)
Definition w_str {C A : Type} (m : St C A) : St (RWStreamImp C) A :=
  fun w => let (a, s) := m (str w) in (a, {| str := s |}).

Section Framing.
Context {C : Type} `{Stream C}.

(** [func (br *byteReaderImpl) ReadByte() (byte, error)] *)
Definition byteReaderImpl_ReadByte : quicvarint.ByteReader C :=
  '(b, err) <- str_Read 1 ;;
  match err with
  | Some e => ret (x00, Some e)
  | None => ret (hd x00 b, None)
  end.

(** [br, ok := w.str.(byteReader); if !ok { br = &byteReaderImpl{w.str} }] *)
Definition byteReader_of_str : quicvarint.ByteReader C :=
  match str_ReadByte with
  | Some own => own
  | None => byteReaderImpl_ReadByte
  end.

(** [func (w *RWStreamImp) Write(p []byte) (int, error)] *)
Definition RWStreamImp_Write (p : list byte) (w : RWStreamImp C)
  : outcome ((nat * option error) * RWStreamImp C) :=
  let df := {| Length := uint64_len p |} in
  match dataFrame_Write df [] with
  | Panics e => Panics e
  | Returns buf =>
      Returns
        (('(_, err) <- w_str (str_Write buf) ;;
          match err with
          | Some e => ret (0%nat, Some e)
          | None => w_str (str_Write p)
          end) w)
  end.

(** [func (w *RWStreamImp) Read(p []byte) (int, error)].  The result is the
    buffer [p] after the call, the count and the error. *)
Definition RWStreamImp_Read (p : list byte)
  : St (RWStreamImp C) (list byte * nat * option error) :=
  let br := byteReader_of_str in
  '(t, err) <- w_str (quicvarint.Read br) ;;
  match err with
  | Some e => ret (p, 0%nat, Some e)
  | None =>
      '(l, err) <- w_str (quicvarint.Read br) ;;
      match err with
      | Some e => ret (p, 0%nat, Some e)
      | None =>
          if negb (t =? 0x0) then
            ret (p, 0%nat, Some (IncorrectFrameType t))
          else
            let bytesRemainingInFrame := l in
            '(b, err) <-
               (if bytesRemainingInFrame <? uint64_len p
                then w_str (str_Read (Z.to_nat bytesRemainingInFrame))
                else w_str (str_Read (length p))) ;;
            ret (b ++ skipn (length b) p, length b, err)
      end
  end.

(** [func (w *RWStreamImp) Close() error] *)
Definition RWStreamImp_Close : St (RWStreamImp C) (option error) :=
  w_str str_Close.

(** [func NewRWStream(str quic.Stream) RWStream] *)
Definition NewRWStream (s : C) : RWStreamImp C := {| str := s |}.

(** [k] calls of [Close] in a row, with the error of each. *)
Fixpoint Close_times (k : nat) : St (RWStreamImp C) (list (option error)) :=
  match k with
  | O => ret []
  | S k' =>
      e <- RWStreamImp_Close ;;
      es <- Close_times k' ;;
      ret (e :: es)
  end.

End Framing.

(** ** Concrete runs *)

Definition bytes_of_nats (l : list nat) : list byte :=
  map (fun n => uint8 (Z.of_nat n)) l.

(** "PING" *)
Definition PING : list byte := [x50; x49; x4e; x47].

(** A payload of 250 bytes, the byte at index [i] being [i]. *)
Definition payload250 : list byte := bytes_of_nats (seq 0 250).

(** A payload of six bytes whose third and fourth byte read as a header. *)
Definition payload6 : list byte := [x41; x42; x00; x02; x43; x44].

(** The conduit of a receiver that has read the first two bytes of the
    frame carrying [payload6] into a buffer of two bytes. *)
Definition mid_frame : Pipe :=
  str (snd (RWStreamImp_Read [x00; x00]
              (NewRWStream (incoming ([x00; x06] ++ payload6))))).

(** A caller's buffer, [make([]byte, n)]. *)
Definition make (n : nat) : list byte := repeat x00 n.

(** ** The server's handler *)

(** What the handler does besides using the stream, in the order it does
    it: its [log.Printf] lines, the status it writes and its pauses. *)
Inductive event : Type :=
| Log_NewRequest                 (* log.Printf("New request") *)
| WriteHeader (status : Z)       (* w.WriteHeader(http.StatusSwitchingProtocols) *)
| Log_WriteError (e : error)     (* "Error while writing message in stream. Error: %v" *)
| Log_PingSent                   (* "Ping message was successfully sent" *)
| Log_ReadError (e : error)      (* "Error while reading message from stream. Error: %v" *)
| Log_Message (buf : list byte)  (* "Message from client: %s", buf *)
| Sleep_1s.                      (* time.Sleep(1 * time.Second) *)

(** [http.StatusSwitchingProtocols] *)
Definition StatusSwitchingProtocols : Z := 101.

Section Handler.
Context {C : Type} `{Stream C}.

(** The loop [for i := 0; i < 10; i++ { ... }] of [ServeHTTP] with [n]
    rounds to go ([n = 10 - i]; the body does not use [i]).  The result is
    the events in order, the stream, and the error of a panic if the loop
    was left by one. *)
Fixpoint ServeHTTP_loop (n : nat) (buf : list byte) (RWStr : RWStreamImp C)
  : list event * (RWStreamImp C * option error) :=
  match n with
  | O => ([], (RWStr, None))
  | S n' =>
      match RWStreamImp_Write PING RWStr with
      | Panics e => ([], (RWStr, Some e))
      | Returns ((_, err), RWStr1) =>
          match err with
          | Some e => ([Log_WriteError e], (RWStr1, None))
          | None =>
              let '((buf', _, err), RWStr2) := RWStreamImp_Read buf RWStr1 in
              match err with
              | Some e => ([Log_PingSent; Log_ReadError e], (RWStr2, None))
              | None =>
                  let '(evs, r) := ServeHTTP_loop n' buf' RWStr2 in
                  (Log_PingSent :: Log_Message buf' :: Sleep_1s :: evs, r)
              end
          end
      end
  end.

(** [func (s *Server) ServeHTTP(w http.ResponseWriter, r *http.Request)],
    given the conduit [str] that [w.(http3.DataStreamer).DataStream()]
    hands out.  The deferred [RWStr.Close()] runs on every way out, and its
    error is dropped.  The result is the events, the conduit as the handler
    leaves it, and the error of a panic if there was one. *)
Definition ServeHTTP (str : C) : list event * (C * option error) :=
  let RWStr := NewRWStream str in
  let buf := make 100 in
  let '(evs, (RWStr', panic)) := ServeHTTP_loop 10 buf RWStr in
  let '(_, Build_RWStreamImp closed) := RWStreamImp_Close RWStr' in
  (Log_NewRequest :: WriteHeader StatusSwitchingProtocols :: evs,
   (closed, panic)).

End Handler.

(** ** Bytes on the wire and in the buffer *)

(** The bytes of one DATA frame carrying [P]: type 0, the length, [P]. *)
Definition frame (P : list byte) : list byte :=
  match quicvarint.encode (uint64_len P) with
  | Ok lb => x00 :: lb ++ P
  | Err _ => []
  end.

(** The caller's buffer [buf] after [msg] was stored at its front. *)
Definition overlay (buf msg : list byte) : list byte :=
  msg ++ skipn (length msg) buf.

(** The events of the rounds in which the messages [msgs] arrive one per
    round, the first one into the buffer [buf]. *)
Fixpoint round_events (msgs : list (list byte)) (buf : list byte) : list event :=
  match msgs with
  | [] => []
  | m :: ms =>
      Log_PingSent :: Log_Message (overlay buf m) :: Sleep_1s
        :: round_events ms (overlay buf m)
  end.

(** A logged message shows a buffer of [n] bytes. *)
Definition whole_buffer (n : nat) (e : event) : Prop :=
  match e with
  | Log_Message b => length b = n
  | _ => True
  end.

(** "PONG" and "OK" *)
Definition PONG : list byte := [x50; x4f; x4e; x47].
Definition OK : list byte := [x4f; x4b].

(** A conduit that has nothing to hand out yet and does not wait: every
    read stores no byte and reports no error (which [io.Reader] allows,
    though it discourages it). *)
Record Stalled : Type := { reads : nat }.

#[export] Instance Stalled_Stream : Stream Stalled := {
  str_Read := fun _ s => (([], None), {| reads := S (reads s) |});
  str_Write := fun p s => ((length p, None), s);
  str_Close := ret None;
  str_ReadByte := None
}.

(** [k] calls of the conduit's own [Close] in a row, with the error of
    each. *)
Fixpoint str_Close_times {C : Type} `{Stream C} (k : nat)
  : St C (list (option error)) :=
  match k with
  | O => ret []
  | S k' =>
      e <- str_Close ;;
      es <- str_Close_times k' ;;
      ret (e :: es)
  end.

(** A conduit for runs that go on after [Close]: a pipe whose [Close] ends
    its sending direction.  Reads go on as on the pipe.  Once it is closed,
    a write is refused whole with an error of the conduit, and another
    [Close] is answered with an error of the conduit (and counted). *)
Record Closable : Type := { wire : Pipe }.

Definition Closable_Read (n : nat) : St Closable (list byte * option error) :=
  fun s => let (r, w) := Pipe_Read n (wire s) in (r, {| wire := w |}).

Definition Closable_Write (p : list byte) : St Closable (nat * option error) :=
  fun s =>
    if Nat.eqb (closes (wire s)) 0 then
      let (r, w) := Pipe_Write p (wire s) in (r, {| wire := w |})
    else ((0%nat, Some (ConduitError 2)), s).

Definition Closable_Close : St Closable (option error) :=
  fun s =>
    let (_, w) := Pipe_Close (wire s) in
    (if Nat.eqb (closes (wire s)) 0 then None else Some (ConduitError 3),
     {| wire := w |}).

#[export] Instance Closable_Stream : Stream Closable := {
  str_Read := Closable_Read;
  str_Write := Closable_Write;
  str_Close := Closable_Close;
  str_ReadByte := None
}.

(** The buffers shown by the "Message from client" lines, in order. *)
Fixpoint logged (evs : list event) : list (list byte) :=
  match evs with
  | [] => []
  | Log_Message b :: evs' => b :: logged evs'
  | _ :: evs' => logged evs'
  end.

(** * Proofs *)

(** ** Bytes and bit operations *)

Lemma byte_to_Z_range (b : byte) : 0 <= byte_to_Z b < 256.
Proof.
  unfold byte_to_Z. pose proof (Byte.to_N_bounded b). lia.
Qed.

Lemma byte_to_Z_uint8 (x : Z) : byte_to_Z (uint8 x) = x mod 256.
Proof.
  unfold byte_to_Z, uint8.
  assert (Hr : 0 <= x mod 256 < 256) by (apply Z.mod_pos_bound; lia).
  destruct (Byte.of_N (Z.to_N (x mod 256))) as [b|] eqn:E.
  - apply Byte.to_of_N in E. rewrite E. lia.
  - apply Byte.of_N_None_iff in E. lia.
Qed.

Lemma uint8_byte_to_Z (b : byte) : uint8 (byte_to_Z b) = b.
Proof.
  unfold uint8. pose proof (byte_to_Z_range b) as Hr.
  rewrite Z.mod_small by lia. unfold byte_to_Z.
  rewrite N2Z.id, Byte.of_to_N. reflexivity.
Qed.

(** Bits that do not overlap add up. *)
Lemma lor_disjoint_add (a b : Z) : Z.land a b = 0 -> Z.lor a b = a + b.
Proof.
  intros Hd. rewrite (Z.add_nocarry_lxor a b Hd). symmetry.
  apply Z.lxor_lor, Hd.
Qed.

Lemma land_shiftl_low (a b n : Z) :
  0 <= n -> 0 <= b < 2 ^ n -> Z.land (Z.shiftl a n) b = 0.
Proof.
  intros Hn Hb. apply Z.bits_inj'. intros m Hm.
  rewrite Z.land_spec, Z.bits_0.
  destruct (Z.lt_ge_cases m n) as [Hlt|Hge].
  - rewrite Z.shiftl_spec_low by assumption. reflexivity.
  - replace b with (b mod 2 ^ n) by (apply Z.mod_small; lia).
    rewrite Z.mod_pow2_bits_high by lia. apply andb_false_r.
Qed.

Lemma lor_shiftl_8 (a b : Z) :
  0 <= b < 256 -> Z.lor (Z.shiftl a 8) b = a * 256 + b.
Proof.
  intros Hb. rewrite lor_disjoint_add.
  - rewrite Z.shiftl_mul_pow2 by lia. reflexivity.
  - apply land_shiftl_low; [lia | exact Hb].
Qed.

(** The tag [k * 64] sits above six value bits. *)
Lemma lor_tag (x k : Z) : 0 <= x < 64 -> Z.lor x (k * 64) = x + k * 64.
Proof.
  intros Hx. rewrite Z.lor_comm, Z.add_comm. apply lor_disjoint_add.
  change 64 with (2 ^ 6). rewrite <- Z.shiftl_mul_pow2 by lia.
  apply land_shiftl_low; [lia | exact Hx].
Qed.

Lemma first_byte_tag (x k : Z) :
  0 <= x < 64 -> 0 <= k < 4 ->
  Z.shiftr (x + k * 64) 6 = k /\ Z.land (x + k * 64) 0x3f = x.
Proof.
  intros Hx Hk. split.
  - rewrite Z.shiftr_div_pow2 by lia. change (2 ^ 6) with 64.
    rewrite Z.div_add by lia. rewrite Z.div_small by lia. reflexivity.
  - change 0x3f with (Z.ones 6). rewrite Z.land_ones by lia.
    change (2 ^ 6) with 64. rewrite Z.mod_add by lia. apply Z.mod_small, Hx.
Qed.

(** One step of reassembling a big-endian integer. *)
Lemma big_endian_step (v k : Z) :
  0 <= k ->
  Z.shiftr v (k + 8) * 256 + Z.shiftr v k mod 256 = Z.shiftr v k.
Proof.
  intros Hk. rewrite <- (Z.shiftr_shiftr v k 8) by lia.
  rewrite (Z.shiftr_div_pow2 (Z.shiftr v k) 8) by lia. change (2 ^ 8) with 256.
  pose proof (Z.div_mod (Z.shiftr v k) 256). lia.
Qed.

(** ** The codec on a list of bytes *)

Import quicvarint.

Lemma decode_rest_cons (n : nat) (acc : Z) (b : byte) (bs : list byte) :
  decode_rest bytes_next (S n) acc (b :: bs) =
  decode_rest bytes_next n (acc * 256 + byte_to_Z b) bs.
Proof.
  cbn [decode_rest]. unfold bind at 1. cbn [bytes_next].
  rewrite lor_shiftl_8 by apply byte_to_Z_range. reflexivity.
Qed.

Lemma decode_rest_nil (n : nat) (acc : Z) :
  decode_rest bytes_next (S n) acc [] = (Err TruncatedInput, []).
Proof. reflexivity. Qed.

Lemma decode_bytes_cons (b0 : byte) (bs : list byte) :
  decode_bytes (b0 :: bs) =
  let width := Nat.pow 2 (Z.to_nat (Z.shiftr (byte_to_Z b0) 6)) in
  match decode_rest bytes_next (width - 1) (Z.land (byte_to_Z b0) 0x3f) bs with
  | (Ok v, rest) => (Ok (v, width), rest)
  | (Err e, rest) => (Err e, rest)
  end.
Proof.
  unfold decode_bytes, decode. unfold bind at 1. cbn [bytes_next]. cbv zeta.
  unfold bind.
  destruct (decode_rest bytes_next _ _ bs) as [[v|e] rest]; reflexivity.
Qed.

Lemma decode_bytes_nil : decode_bytes [] = (Err io_EOF, []).
Proof. reflexivity. Qed.

(** The first byte of an encoding: six value bits [x] under the tag [k]. *)
Lemma decode_bytes_tagged (x k : Z) (bs : list byte) :
  0 <= x < 64 -> 0 <= k < 4 ->
  decode_bytes (uint8 (Z.lor x (k * 64)) :: bs) =
  match decode_rest bytes_next (Nat.pow 2 (Z.to_nat k) - 1) x bs with
  | (Ok v, rest) => (Ok (v, Nat.pow 2 (Z.to_nat k)), rest)
  | (Err e, rest) => (Err e, rest)
  end.
Proof.
  intros Hx Hk. rewrite decode_bytes_cons. cbv zeta.
  rewrite lor_tag by assumption.
  rewrite byte_to_Z_uint8. rewrite Z.mod_small by lia.
  destruct (first_byte_tag x k Hx Hk) as [-> ->]. reflexivity.
Qed.

Lemma shiftr_bound (v k : Z) :
  0 <= k -> 0 <= v < 2 ^ (k + 6) -> 0 <= Z.shiftr v k < 64.
Proof.
  intros Hk Hv. rewrite Z.shiftr_div_pow2 by lia.
  rewrite Z.pow_add_r in Hv by lia. change (2 ^ 6) with 64 in Hv.
  assert (0 < 2 ^ k) by (apply Z.pow_pos_nonneg; lia).
  split.
  - apply Z.div_pos; lia.
  - apply Z.div_lt_upper_bound; lia.
Qed.

Lemma Ok_inj {A : Type} (a b : A) : Ok a = Ok b -> a = b.
Proof. intros E. injection E as E. exact E. Qed.

Ltac big_endian k :=
  let E := fresh "E" in
  match goal with
  | |- context [Z.shiftr ?v _ * 256 + Z.shiftr ?v k mod 256] =>
      pose proof (big_endian_step v k ltac:(lia)) as E;
      cbn [Z.add Pos.add Pos.succ Pos.add_carry] in E; rewrite E; clear E
  end.

(** Decoding what [encode] produced gives the value back, consumes exactly
    the encoding and leaves the bytes after it. *)
Lemma decode_encode (v : Z) (bs rest : list byte) :
  encode v = Ok bs ->
  decode_bytes (bs ++ rest) = (Ok (v, length bs), rest).
Proof.
  unfold encode, maxVarInt1, maxVarInt2, maxVarInt4, maxVarInt8.
  destruct (Z.ltb_spec v 0) as [|H0]; [discriminate|].
  destruct (Z.leb_spec v 63) as [H1|H1].
  { intros E; apply Ok_inj in E; subst bs. cbn [app length].
    pose proof (decode_bytes_tagged v 0 rest ltac:(lia) ltac:(lia)) as E.
    cbn [Z.mul] in E. rewrite Z.lor_0_r in E. exact E. }
  destruct (Z.leb_spec v 16383) as [H2|H2].
  { intros E; apply Ok_inj in E; subst bs. cbn [app length].
    pose proof (shiftr_bound v 8 ltac:(lia) ltac:(cbn; lia)) as Hb.
    pose proof (decode_bytes_tagged (Z.shiftr v 8) 1 (uint8 v :: rest) Hb ltac:(lia)) as E.
    change (1 * 64) with 0x40 in E. rewrite E. clear E.
    change (Nat.pow 2 (Z.to_nat 1) - 1)%nat with 1%nat.
    rewrite decode_rest_cons, byte_to_Z_uint8. cbn [decode_rest ret].
    replace v with (Z.shiftr v 0) at 2 3 by apply Z.shiftr_0_r.
    big_endian 0. rewrite Z.shiftr_0_r. reflexivity. }
  destruct (Z.leb_spec v 1073741823) as [H3|H3].
  { intros E; apply Ok_inj in E; subst bs. cbn [app length].
    pose proof (shiftr_bound v 24 ltac:(lia) ltac:(cbn; lia)) as Hb.
    pose proof (decode_bytes_tagged (Z.shiftr v 24) 2
                  (uint8 (Z.shiftr v 16) :: uint8 (Z.shiftr v 8) :: uint8 v :: rest)
                  Hb ltac:(lia)) as E.
    change (2 * 64) with 0x80 in E. rewrite E. clear E.
    change (Nat.pow 2 (Z.to_nat 2) - 1)%nat with 3%nat.
    rewrite !decode_rest_cons, !byte_to_Z_uint8. cbn [decode_rest ret].
    replace v with (Z.shiftr v 0) at 4 5 by apply Z.shiftr_0_r.
    big_endian 16. big_endian 8. big_endian 0.
    rewrite Z.shiftr_0_r. reflexivity. }
  destruct (Z.leb_spec v 4611686018427387903) as [H4|H4]; [|discriminate].
  intros E; apply Ok_inj in E; subst bs. cbn [app length].
  pose proof (shiftr_bound v 56 ltac:(lia) ltac:(cbn; lia)) as Hb.
  pose proof (decode_bytes_tagged (Z.shiftr v 56) 3
                (uint8 (Z.shiftr v 48) :: uint8 (Z.shiftr v 40)
                 :: uint8 (Z.shiftr v 32) :: uint8 (Z.shiftr v 24)
                 :: uint8 (Z.shiftr v 16) :: uint8 (Z.shiftr v 8)
                 :: uint8 v :: rest) Hb ltac:(lia)) as E.
  change (3 * 64) with 0xc0 in E. rewrite E. clear E.
  change (Nat.pow 2 (Z.to_nat 3) - 1)%nat with 7%nat.
  rewrite !decode_rest_cons, !byte_to_Z_uint8. cbn [decode_rest ret].
  replace v with (Z.shiftr v 0) at 8 9 by apply Z.shiftr_0_r.
  big_endian 48. big_endian 40. big_endian 32. big_endian 24.
  big_endian 16. big_endian 8. big_endian 0.
  rewrite Z.shiftr_0_r. reflexivity.
Qed.

Lemma encode_in_range (v : Z) :
  0 <= v <= maxVarInt8 ->
  exists bs, encode v = Ok bs /\ (1 <= length bs <= 8)%nat.
Proof.
  unfold encode, maxVarInt1, maxVarInt2, maxVarInt4, maxVarInt8. intros Hv.
  destruct (Z.ltb_spec v 0); [lia|].
  destruct (Z.leb_spec v 63); [eexists; split; [reflexivity | cbn; lia]|].
  destruct (Z.leb_spec v 16383); [eexists; split; [reflexivity | cbn; lia]|].
  destruct (Z.leb_spec v 1073741823); [eexists; split; [reflexivity | cbn; lia]|].
  destruct (Z.leb_spec v 4611686018427387903); [|lia].
  eexists; split; [reflexivity | cbn; lia].
Qed.

(** [decode_rest] consumes exactly the bytes it asks for. *)
Lemma decode_rest_consumes (n : nat) :
  forall (acc : Z) (bs : list byte) (v : Z) (rest : list byte),
    decode_rest bytes_next n acc bs = (Ok v, rest) ->
    rest = skipn n bs /\ (n <= length bs)%nat.
Proof.
  induction n as [|n IH]; intros acc bs v rest E.
  - cbn in E. injection E as _ <-. cbn. split; [reflexivity | lia].
  - destruct bs as [|b bs].
    + rewrite decode_rest_nil in E. discriminate.
    + rewrite decode_rest_cons in E. apply IH in E as [-> Hn].
      cbn [skipn length]. split; [reflexivity | lia].
Qed.

Lemma width_positive (b0 : byte) :
  (1 <= Nat.pow 2 (Z.to_nat (Z.shiftr (byte_to_Z b0) 6)))%nat.
Proof.
  pose proof (Nat.pow_nonzero 2 (Z.to_nat (Z.shiftr (byte_to_Z b0) 6))). lia.
Qed.

(** A successful [decode] consumed [k >= 1] bytes from the front. *)
Lemma decode_bytes_consumes (bs : list byte) (v : Z) (k : nat) (rest : list byte) :
  decode_bytes bs = (Ok (v, k), rest) ->
  rest = skipn k bs /\ (1 <= k <= length bs)%nat.
Proof.
  destruct bs as [|b0 bs]; [discriminate|].
  rewrite decode_bytes_cons. cbv zeta.
  pose proof (width_positive b0) as Hw.
  set (width := Nat.pow 2 _) in *. clearbody width.
  destruct width as [|n]; [lia|].
  replace (S n - 1)%nat with n by lia.
  destruct (decode_rest bytes_next n _ bs) as [[v'|e] r] eqn:E;
    [|discriminate].
  intros E'. injection E' as <- <- <-.
  apply decode_rest_consumes in E as [-> Hn].
  cbn [skipn length]. split; [reflexivity | lia].
Qed.

(** On a list of bytes the only failures are the two ends of data. *)
Lemma decode_rest_error (n : nat) :
  forall (acc : Z) (bs : list byte) (e : error) (rest : list byte),
    decode_rest bytes_next n acc bs = (Err e, rest) -> e = TruncatedInput.
Proof.
  induction n as [|n IH]; intros acc bs e rest E.
  - discriminate.
  - destruct bs as [|b bs].
    + rewrite decode_rest_nil in E. congruence.
    + rewrite decode_rest_cons in E. exact (IH _ _ _ _ E).
Qed.

Lemma decode_bytes_error (bs : list byte) (e : error) (rest : list byte) :
  decode_bytes bs = (Err e, rest) -> e = io_EOF \/ e = TruncatedInput.
Proof.
  destruct bs as [|b0 bs].
  - rewrite decode_bytes_nil. intros E. left. congruence.
  - rewrite decode_bytes_cons. cbv zeta.
    destruct (decode_rest bytes_next _ _ bs) as [[v|e'] r] eqn:Er;
      [discriminate|].
    intros E. right. apply decode_rest_error in Er. congruence.
Qed.

(** Two integers in a row: the header of a frame. *)
Lemma decode_header_consumes (bs r1 r2 : list byte) (t l : Z) (k1 k2 : nat) :
  decode_bytes bs = (Ok (t, k1), r1) ->
  decode_bytes r1 = (Ok (l, k2), r2) ->
  r1 = skipn k1 bs /\ r2 = skipn (k1 + k2) bs /\
  (1 <= k1)%nat /\ (1 <= k2)%nat /\ (k1 + k2 <= length bs)%nat.
Proof.
  intros E1 E2.
  destruct (decode_bytes_consumes _ _ _ _ E1) as [-> [Hk1 Hl1]].
  destruct (decode_bytes_consumes _ _ _ _ E2) as [-> [Hk2 Hl2]].
  rewrite skipn_skipn, (Nat.add_comm k2 k1). rewrite length_skipn in Hl2.
  repeat split; try reflexivity; lia.
Qed.

(** ** The pipe as a byte source *)

Lemma with_inbox_same (s : Pipe) : with_inbox (inbox s) s = s.
Proof. destruct s; reflexivity. Qed.

Lemma ReadByte_Pipe (s : Pipe) :
  byteReaderImpl_ReadByte s =
  let (r, bs) := bytes_next (inbox s) in (r, with_inbox bs s).
Proof.
  unfold byteReaderImpl_ReadByte, bind. cbn [str_Read Pipe_Stream].
  unfold Pipe_Read, with_inbox.
  destruct s as [[|b bs] out cl]; reflexivity.
Qed.

Lemma decode_rest_Pipe (n : nat) :
  forall (acc : Z) (s : Pipe),
    decode_rest byteReaderImpl_ReadByte n acc s =
    let (r, bs) := decode_rest bytes_next n acc (inbox s) in (r, with_inbox bs s).
Proof.
  induction n as [|n IH]; intros acc s.
  - cbn. rewrite with_inbox_same. reflexivity.
  - cbn [decode_rest]. unfold bind. rewrite ReadByte_Pipe.
    destruct (inbox s) as [|b bs] eqn:Ei; cbn [bytes_next].
    + reflexivity.
    + rewrite IH. reflexivity.
Qed.

Lemma decode_Pipe (s : Pipe) :
  decode byteReaderImpl_ReadByte s =
  let (r, bs) := decode_bytes (inbox s) in (r, with_inbox bs s).
Proof.
  unfold decode_bytes, decode. unfold bind. rewrite ReadByte_Pipe.
  destruct (inbox s) as [|b0 bs] eqn:Ei; cbn [bytes_next].
  - reflexivity.
  - cbv zeta. rewrite decode_rest_Pipe. cbn [inbox with_inbox].
    destruct (decode_rest bytes_next _ _ bs) as [[v|e] r]; reflexivity.
Qed.

(** [quicvarint.Read] on the pipe, through the type assertion of [Read]. *)
Lemma quicvarint_Read_Pipe (w : RWStreamImp Pipe) :
  w_str (Read byteReader_of_str) w =
  match decode_bytes (inbox (str w)) with
  | (Ok (v, _), bs) => ((v, None), NewRWStream (with_inbox bs (str w)))
  | (Err e, bs) => ((0, Some e), NewRWStream (with_inbox bs (str w)))
  end.
Proof.
  unfold w_str, Read, byteReader_of_str, bind. cbn [str_ReadByte Pipe_Stream].
  rewrite decode_Pipe.
  destruct (decode_bytes (inbox (str w))) as [[[v k]|e] bs]; reflexivity.
Qed.

(** ** [Read] and [Write] on the pipe *)

(** [Read] in terms of the bytes the pipe holds. *)
Lemma Read_Pipe (p : list byte) (s : Pipe) :
  RWStreamImp_Read p (NewRWStream s) =
  match decode_bytes (inbox s) with
  | (Err e, r1) => ((p, 0%nat, Some e), NewRWStream (with_inbox r1 s))
  | (Ok (t, _), r1) =>
      match decode_bytes r1 with
      | (Err e, r2) => ((p, 0%nat, Some e), NewRWStream (with_inbox r2 s))
      | (Ok (l, _), r2) =>
          if negb (t =? 0) then
            ((p, 0%nat, Some (IncorrectFrameType t)),
             NewRWStream (with_inbox r2 s))
          else
            let n := if l <? uint64_len p then Z.to_nat l else length p in
            let '((b, err), s') := Pipe_Read n (with_inbox r2 s) in
            ((b ++ skipn (length b) p, length b, err), NewRWStream s')
      end
  end.
Proof.
  unfold RWStreamImp_Read. cbv zeta. unfold bind at 1.
  rewrite quicvarint_Read_Pipe. cbn [str NewRWStream].
  destruct (decode_bytes (inbox s)) as [[[t k1]|e] r1]; [|reflexivity].
  unfold bind at 1. rewrite quicvarint_Read_Pipe. cbn [str NewRWStream inbox with_inbox].
  destruct (decode_bytes r1) as [[[l k2]|e] r2]; [|reflexivity].
  destruct (negb (t =? 0)); [reflexivity|].
  unfold bind, w_str, ret, NewRWStream, with_inbox.
  cbn [str str_Read Pipe_Stream inbox outbox closes]. cbv zeta.
  destruct (l <? uint64_len p); cbn [str];
    match goal with
    | |- context [Pipe_Read ?n ?s] => destruct (Pipe_Read n s) as [[b err] s']
    end; reflexivity.
Qed.

(** What the pipe hands out for a request of [n] bytes. *)
Lemma Pipe_Read_available (n : nat) (s : Pipe) :
  inbox s <> [] ->
  Pipe_Read n s = ((firstn n (inbox s), None), with_inbox (skipn n (inbox s)) s).
Proof.
  unfold Pipe_Read, with_inbox. destruct (inbox s); [congruence | reflexivity].
Qed.

Lemma Pipe_Read_nothing (s : Pipe) :
  Pipe_Read 0 s = (([], None), with_inbox (skipn 0 (inbox s)) s).
Proof.
  unfold Pipe_Read, with_inbox. destruct s as [[|b bs] out cl]; reflexivity.
Qed.

Lemma Pipe_Read_end (n : nat) (s : Pipe) :
  inbox s = [] -> n <> 0%nat ->
  Pipe_Read n s = (([], Some io_EOF), s).
Proof.
  unfold Pipe_Read. intros -> Hn.
  destruct (Nat.eqb_spec n 0); [contradiction | reflexivity].
Qed.

(** The header [Write] builds. *)
Lemma dataFrame_Write_header (n : Z) :
  0 <= n <= maxVarInt8 ->
  exists lb,
    encode n = Ok lb /\ (1 <= length lb <= 8)%nat /\
    dataFrame_Write {| Length := n |} [] = Returns (x00 :: lb).
Proof.
  intros Hn. destruct (encode_in_range n Hn) as (lb & E & Hl).
  exists lb. repeat split; try tauto.
  unfold dataFrame_Write, Write. cbn [Length]. rewrite E.
  reflexivity.
Qed.

Lemma encode_0 : encode 0 = Ok [x00].
Proof. reflexivity. Qed.

(** [Write] on the pipe: one frame appended to what was written before. *)
Lemma Write_Pipe (P : list byte) (s : Pipe) :
  Z.of_nat (length P) <= maxVarInt8 ->
  exists lb,
    encode (Z.of_nat (length P)) = Ok lb /\
    RWStreamImp_Write P (NewRWStream s) =
    Returns ((length P, None),
             NewRWStream {| inbox := inbox s;
                            outbox := outbox s ++ [x00] ++ lb ++ P;
                            closes := closes s |}).
Proof.
  intros HP.
  destruct (dataFrame_Write_header (Z.of_nat (length P)) ltac:(lia))
    as (lb & E & _ & Hh).
  exists lb. split; [exact E|].
  unfold RWStreamImp_Write. cbv zeta. unfold uint64_len. rewrite Hh.
  unfold bind, w_str, ret. cbn. rewrite <- !app_assoc. reflexivity.
Qed.

(** [Read] when the pipe holds a DATA header for [l] bytes, then [body]. *)
Lemma Read_DATA_frame (l : Z) (lb body p : list byte) (s : Pipe) :
  encode l = Ok lb ->
  inbox s = [x00] ++ lb ++ body ->
  RWStreamImp_Read p (NewRWStream s) =
  let n := if l <? uint64_len p then Z.to_nat l else length p in
  let '((b, err), s') := Pipe_Read n (with_inbox body s) in
  ((b ++ skipn (length b) p, length b, err), NewRWStream s').
Proof.
  intros El Ei. rewrite Read_Pipe, Ei.
  rewrite (decode_encode 0 [x00] (lb ++ body) encode_0).
  rewrite (decode_encode l lb body El).
  reflexivity.
Qed.

(** A whole frame that fits the caller's buffer is delivered in one call,
    and the bytes after it stay in the pipe. *)
Lemma Read_one_frame (lb P rest p : list byte) (s : Pipe) :
  encode (Z.of_nat (length P)) = Ok lb ->
  inbox s = [x00] ++ lb ++ P ++ rest ->
  (length P <= length p)%nat ->
  RWStreamImp_Read p (NewRWStream s) =
  ((P ++ skipn (length P) p, length P, None), NewRWStream (with_inbox rest s)).
Proof.
  intros El Ei Hfit. rewrite (Read_DATA_frame _ lb (P ++ rest) p s El Ei).
  cbv zeta. unfold uint64_len.
  assert (En : (if Z.of_nat (length P) <? Z.of_nat (length p)
                then Z.to_nat (Z.of_nat (length P)) else length p) = length P).
  { destruct (Z.ltb_spec (Z.of_nat (length P)) (Z.of_nat (length p))); lia. }
  rewrite En. clear En.
  destruct P as [|b P].
  - rewrite Pipe_Read_nothing. reflexivity.
  - rewrite Pipe_Read_available by (cbn; discriminate).
    cbn [inbox with_inbox outbox closes].
    rewrite firstn_app, skipn_app, Nat.sub_diag, firstn_all, skipn_all.
    cbn [firstn skipn app]. rewrite app_nil_r. reflexivity.
Qed.

Lemma firstn_min_length {A : Type} (c : nat) (l : list A) :
  firstn (Nat.min c (length l)) l = firstn c l.
Proof.
  destruct (Nat.le_ge_cases c (length l)).
  - rewrite Nat.min_l by assumption. reflexivity.
  - rewrite Nat.min_r by assumption.
    rewrite firstn_all, firstn_all2 by assumption. reflexivity.
Qed.

Lemma skipn_min_length {A : Type} (c : nat) (l : list A) :
  skipn (Nat.min c (length l)) l = skipn c l.
Proof.
  destruct (Nat.le_ge_cases c (length l)).
  - rewrite Nat.min_l by assumption. reflexivity.
  - rewrite Nat.min_r by assumption.
    rewrite skipn_all, skipn_all2 by assumption. reflexivity.
Qed.

(** A read of the pipe that reports no error handed out the front of what
    the pipe held. *)
Lemma Pipe_Read_ok (c : nat) (s s' : Pipe) (b : list byte) :
  Pipe_Read c s = ((b, None), s') ->
  b = firstn c (inbox s) /\ s' = with_inbox (skipn c (inbox s)) s.
Proof.
  unfold Pipe_Read, with_inbox. destruct s as [[|x bs] out cl]; cbn [inbox outbox closes].
  - intros E. injection E as <- _ <-. rewrite firstn_nil, skipn_nil. split; reflexivity.
  - intros E. injection E as <- <-. split; reflexivity.
Qed.

Lemma frame_capacity (l : Z) (p : list byte) :
  (if l <? uint64_len p then Z.to_nat l else length p) =
  Nat.min (Z.to_nat l) (length p).
Proof.
  unfold uint64_len. destruct (Z.ltb_spec l (Z.of_nat (length p))); lia.
Qed.

(** A frame that exceeds the caller's buffer: the first call delivers a
    buffer's worth of payload, and the result of the next call is that of a
    first call on a conduit that starts with the rest of the payload. *)
Lemma Read_after_partial_frame (lb P rest p : list byte) (s : Pipe) :
  encode (Z.of_nat (length P)) = Ok lb ->
  inbox s = [x00] ++ lb ++ P ++ rest ->
  (0 < length p < length P)%nat ->
  let '(r1, w1) := RWStreamImp_Read p (NewRWStream s) in
  r1 = (firstn (length p) P, length p, None) /\
  RWStreamImp_Read p w1 =
  RWStreamImp_Read p
    (NewRWStream (with_inbox (skipn (length p) P ++ rest) s)).
Proof.
  intros El Ei Hp. rewrite (Read_DATA_frame _ lb (P ++ rest) p s El Ei).
  cbv zeta. rewrite frame_capacity, Nat2Z.id, Nat.min_r by lia.
  rewrite Pipe_Read_available
    by (cbn [inbox with_inbox]; destruct P; cbn in *; [lia | discriminate]).
  cbn [inbox with_inbox].
  rewrite firstn_app, skipn_app.
  replace (length p - length P)%nat with 0%nat by lia.
  cbn [firstn skipn]. rewrite app_nil_r.
  rewrite length_firstn, Nat.min_l by lia.
  rewrite skipn_all, app_nil_r. split; reflexivity.
Qed.

(** The stream object is nothing but its conduit. *)
Lemma stream_is_its_conduit {C : Type} (w : RWStreamImp C) :
  w = NewRWStream (str w).
Proof. destruct w; reflexivity. Qed.

(** Every call of [Read] that delivers payload takes at least two more
    bytes, those of the header it parsed, out of the pipe. *)
Lemma Read_Pipe_consumes
  (p buf : list byte) (n : nat) (err : option error)
  (w w' : RWStreamImp Pipe) :
  RWStreamImp_Read p w = ((buf, n, err), w') ->
  (0 < n)%nat ->
  (length (inbox (str w')) + n + 2 <= length (inbox (str w)))%nat.
Proof.
  rewrite (stream_is_its_conduit w). cbn [str NewRWStream].
  set (s := str w). clearbody s. rewrite Read_Pipe. intros E Hn.
  destruct (decode_bytes (inbox s)) as [[[t k1]|e] r1] eqn:E1;
    [|injection E as _ <- _ _; lia].
  destruct (decode_bytes r1) as [[[l k2]|e] r2] eqn:E2;
    [|injection E as _ <- _ _; lia].
  destruct (decode_header_consumes _ _ _ _ _ _ _ E1 E2)
    as (_ & Er2 & Hk1 & Hk2 & Hlen).
  apply (f_equal (@length byte)) in Er2. rewrite length_skipn in Er2.
  destruct (negb (t =? 0)); [injection E as _ <- _ _; lia|].
  cbv zeta in E. revert E. unfold Pipe_Read. cbn [inbox with_inbox].
  destruct r2 as [|x r2]; intros E; injection E as _ <- _ <-.
  - cbn in Hn. lia.
  - cbn [str NewRWStream inbox]. rewrite length_skipn, length_firstn. lia.
Qed.

(** No payload of 250 bytes, whatever its content, comes out of three reads
    with buffers of 100 bytes as chunks of 100, 100 and 50 bytes: the second
    and the third call each spend at least two payload bytes on a header. *)
Lemma split_read_never_100_100_50 (P : list byte) (w : RWStreamImp Pipe) :
  length P = 250%nat ->
  RWStreamImp_Write P (NewRWStream (incoming [])) =
    Returns ((250%nat, None), w) ->
  let '(r1, w1) := RWStreamImp_Read (make 100) (NewRWStream (deliver (str w))) in
  let '(r2, w2) := RWStreamImp_Read (make 100) w1 in
  let '(r3, w3) := RWStreamImp_Read (make 100) w2 in
  ~ (snd (fst r1) = 100 /\ snd (fst r2) = 100 /\ snd (fst r3) = 50)%nat.
Proof.
  intros HP Ew.
  destruct (Write_Pipe P (incoming [])) as (lb & El & Ew').
  { rewrite HP. vm_compute. discriminate. }
  rewrite Ew' in Ew. injection Ew as _ <-.
  rewrite HP in El. vm_compute in El. apply Ok_inj in El. subst lb.
  cbn [str NewRWStream deliver outbox incoming app].
  destruct (RWStreamImp_Read (make 100) _) as [[[b1 n1] e1] w1] eqn:E1.
  destruct (RWStreamImp_Read (make 100) w1) as [[[b2 n2] e2] w2] eqn:E2.
  destruct (RWStreamImp_Read (make 100) w2) as [[[b3 n3] e3] w3] eqn:E3.
  cbn [fst snd]. intros (-> & -> & ->).
  apply Read_Pipe_consumes in E1; [|lia].
  apply Read_Pipe_consumes in E2; [|lia].
  apply Read_Pipe_consumes in E3; [|lia].
  cbn [str NewRWStream deliver outbox inbox incoming length] in E1.
  rewrite HP in E1. lia.
Qed.

(** ** Close and the conduits *)

Lemma Close_times_Pipe (k : nat) :
  forall s : Pipe,
    Close_times k (NewRWStream s) =
    (repeat None k,
     NewRWStream {| inbox := inbox s; outbox := outbox s;
                    closes := closes s + k |}).
Proof.
  induction k as [|k IH]; intros s.
  - cbn. rewrite Nat.add_0_r. destruct s; reflexivity.
  - cbn [Close_times repeat]. unfold bind at 1.
    unfold RWStreamImp_Close at 1, w_str at 1.
    cbn [str NewRWStream str_Close Pipe_Stream Pipe_Close].
    unfold bind. fold (@NewRWStream Pipe). rewrite IH.
    cbn [inbox outbox closes]. unfold ret.
    replace (S (closes s) + k)%nat with (closes s + S k)%nat by lia.
    reflexivity.
Qed.

(** The conduit with limited room keeps to Go's [io.Writer] contract. *)
Lemma Narrow_Writer_contract (b : list byte) (s s' : Narrow) (n : nat) :
  str_Write b s = ((n, None), s') -> n = length b.
Proof.
  cbn [str_Write Narrow_Stream]. unfold Narrow_Write.
  destruct (Nat.leb (length b) (room s)); intros E; congruence.
Qed.

(** * The claims *)

(** ** Variable-length integers *)

(** C6. For every integer [v] in [0, 2^62-1], [encode v] succeeds, and
    decoding its bytes (whatever follows them) yields [v] together with a
    consumed-byte count equal to the length of the encoding, leaving what
    follows untouched. *)
Theorem varint_round_trip (v : Z) :
  0 <= v <= 2 ^ 62 - 1 ->
  exists bs,
    encode v = Ok bs /\
    forall rest, decode_bytes (bs ++ rest) = (Ok (v, length bs), rest).
Proof.
  intros Hv. destruct (encode_in_range v) as (bs & E & _).
  - unfold maxVarInt8. lia.
  - exists bs. split; [exact E|]. intros rest. apply decode_encode, E.
Qed.

Lemma varint_round_trip_witness :
  0 <= 16384 <= 2 ^ 62 - 1 /\
  exists bs,
    encode 16384 = Ok bs /\
    forall rest, decode_bytes (bs ++ rest) = (Ok (16384, length bs), rest).
Proof.
  split; [lia | apply (varint_round_trip 16384); lia].
Defined.

(** ** The write path *)

(** C2. For every payload [P] (of a length that fits a frame header),
    [Write P] returns and appends to what the conduit has received exactly
    the encoding of 0 (the DATA type), the encoding of [len(P)] and [P]
    itself: one complete frame and nothing else. *)
Theorem Write_emits_one_frame (P : list byte) (s : Pipe) :
  Z.of_nat (length P) <= maxVarInt8 ->
  exists tb lb,
    encode 0 = Ok tb /\
    encode (Z.of_nat (length P)) = Ok lb /\
    RWStreamImp_Write P (NewRWStream s) =
    Returns ((length P, None),
             NewRWStream {| inbox := inbox s;
                            outbox := outbox s ++ tb ++ lb ++ P;
                            closes := closes s |}).
Proof.
  intros HP. destruct (Write_Pipe P s HP) as (lb & El & Ew).
  exists [x00], lb. repeat split; [exact El | exact Ew].
Qed.

Lemma Write_emits_one_frame_witness :
  Z.of_nat (length PING) <= maxVarInt8 /\
  exists tb lb,
    encode 0 = Ok tb /\
    encode (Z.of_nat (length PING)) = Ok lb /\
    RWStreamImp_Write PING (NewRWStream (incoming [])) =
    Returns ((length PING, None),
             NewRWStream {| inbox := inbox (incoming []);
                            outbox := outbox (incoming []) ++ tb ++ lb ++ PING;
                            closes := closes (incoming []) |}).
Proof.
  split; [vm_compute; discriminate |].
  apply (Write_emits_one_frame PING (incoming [])). vm_compute; discriminate.
Defined.

(** ** The read path *)

(** C3. Writing a payload [P] to a framed stream on a fresh conduit and then
    reading at the receiving end with a buffer of at least [len(P)] bytes
    returns, in that single call, the count [len(P)] with no error and
    exactly the bytes of [P] at the front of the buffer; nothing is left in
    the conduit. *)
Theorem frame_round_trip (P p : list byte) :
  Z.of_nat (length P) <= maxVarInt8 ->
  (length P <= length p)%nat ->
  exists w,
    RWStreamImp_Write P (NewRWStream (incoming [])) =
      Returns ((length P, None), w) /\
    RWStreamImp_Read p (NewRWStream (deliver (str w))) =
      ((P ++ skipn (length P) p, length P, None), NewRWStream (incoming [])).
Proof.
  intros HP Hfit. destruct (Write_Pipe P (incoming []) HP) as (lb & El & Ew).
  eexists. split; [exact Ew|].
  cbn [str NewRWStream deliver outbox incoming inbox closes app].
  apply (Read_one_frame lb P [] p (incoming (x00 :: lb ++ P)) El);
    [| exact Hfit].
  cbn [inbox incoming app]. rewrite app_nil_r. reflexivity.
Qed.

Lemma frame_round_trip_witness :
  Z.of_nat (length PING) <= maxVarInt8 /\
  (length PING <= length (make 100))%nat /\
  exists w,
    RWStreamImp_Write PING (NewRWStream (incoming [])) =
      Returns ((length PING, None), w) /\
    RWStreamImp_Read (make 100) (NewRWStream (deliver (str w))) =
      ((PING ++ skipn (length PING) (make 100), length PING, None),
       NewRWStream (incoming [])).
Proof.
  split; [vm_compute; discriminate |].
  split; [vm_compute; lia |].
  apply (frame_round_trip PING (make 100)); [vm_compute; discriminate |].
  vm_compute; lia.
Defined.

(** C4. For every incoming frame whose header declares a type [t] other
    than 0 (DATA), in whatever width the two header integers are encoded,
    [Read] fails with the frame-type error for [t], returns a count of zero
    and leaves the caller's buffer as it was; it stops right after the
    header: the bytes that follow stay in the conduit, none is skipped. *)
Theorem Read_rejects_other_frame_types
  (t l : Z) (k1 k2 : nat) (after_type after_header p : list byte) (s : Pipe) :
  decode_bytes (inbox s) = (Ok (t, k1), after_type) ->
  decode_bytes after_type = (Ok (l, k2), after_header) ->
  t <> 0 ->
  RWStreamImp_Read p (NewRWStream s) =
    ((p, 0%nat, Some (IncorrectFrameType t)),
     NewRWStream (with_inbox after_header s)) /\
  after_header = skipn (k1 + k2) (inbox s).
Proof.
  intros Et El Ht. split.
  - rewrite Read_Pipe, Et, El.
    destruct (Z.eqb_spec t 0); [contradiction | reflexivity].
  - apply (decode_header_consumes _ _ _ _ _ _ _ Et El).
Qed.

Lemma Read_rejects_other_frame_types_witness :
  decode_bytes (inbox (incoming ([x01; x04] ++ PING))) =
    (Ok (1, 1%nat), [x04] ++ PING) /\
  decode_bytes ([x04] ++ PING) = (Ok (4, 1%nat), PING) /\
  1 <> 0 /\
  RWStreamImp_Read (make 100) (NewRWStream (incoming ([x01; x04] ++ PING))) =
    ((make 100, 0%nat, Some (IncorrectFrameType 1)),
     NewRWStream (with_inbox PING (incoming ([x01; x04] ++ PING)))) /\
  PING = skipn (1 + 1) (inbox (incoming ([x01; x04] ++ PING))).
Proof.
  split; [reflexivity |].
  split; [reflexivity |].
  split; [discriminate |].
  apply (Read_rejects_other_frame_types 1 4 1 1 ([x04] ++ PING) PING (make 100)
           (incoming ([x01; x04] ++ PING)));
    [reflexivity | reflexivity | discriminate].
Defined.

(** C9. When [Read] fails with the frame-type error, both header integers
    have been consumed from the conduit: the conduit held a type integer
    [t <> 0] of [k1 >= 1] bytes and a length integer of [k2 >= 1] bytes at
    its front, and after the call it is positioned [k1 + k2] bytes further,
    although the call returned zero bytes and an untouched buffer. *)
Theorem frame_type_error_consumes_header
  (p buf : list byte) (n : nat) (t : Z) (s : Pipe) (w' : RWStreamImp Pipe) :
  RWStreamImp_Read p (NewRWStream s) =
    ((buf, n, Some (IncorrectFrameType t)), w') ->
  exists (l : Z) (k1 k2 : nat),
    decode_bytes (inbox s) = (Ok (t, k1), skipn k1 (inbox s)) /\
    decode_bytes (skipn k1 (inbox s)) = (Ok (l, k2), skipn (k1 + k2) (inbox s)) /\
    t <> 0 /\ (1 <= k1)%nat /\ (1 <= k2)%nat /\
    (k1 + k2 <= length (inbox s))%nat /\
    n = 0%nat /\ buf = p /\
    str w' = with_inbox (skipn (k1 + k2) (inbox s)) s.
Proof.
  rewrite Read_Pipe. intros E.
  destruct (decode_bytes (inbox s)) as [[[t1 k1]|e] r1] eqn:E1.
  2:{ apply decode_bytes_error in E1. destruct E1; congruence. }
  destruct (decode_bytes r1) as [[[l k2]|e] r2] eqn:E2.
  2:{ apply decode_bytes_error in E2. destruct E2; congruence. }
  destruct (decode_header_consumes _ _ _ _ _ _ _ E1 E2)
    as (-> & -> & Hk1 & Hk2 & Hlen).
  destruct (Z.eqb_spec t1 0) as [Ht|Ht]; cbn [negb] in E.
  - cbv zeta in E. exfalso. revert E.
    unfold Pipe_Read. cbn [inbox with_inbox].
    destruct (skipn (k1 + k2) (inbox s)); [destruct (Nat.eqb _ 0)|];
      congruence.
  - injection E as <- <- Et <-. subst t1.
    exists l, k1, k2. repeat split; try assumption; reflexivity.
Qed.

Lemma frame_type_error_consumes_header_witness :
  RWStreamImp_Read (make 100) (NewRWStream (incoming ([x01; x04] ++ PING))) =
    ((make 100, 0%nat, Some (IncorrectFrameType 1)),
     NewRWStream (incoming PING)) /\
  exists (l : Z) (k1 k2 : nat),
    decode_bytes (inbox (incoming ([x01; x04] ++ PING))) =
      (Ok (1, k1), skipn k1 (inbox (incoming ([x01; x04] ++ PING)))) /\
    decode_bytes (skipn k1 (inbox (incoming ([x01; x04] ++ PING)))) =
      (Ok (l, k2), skipn (k1 + k2) (inbox (incoming ([x01; x04] ++ PING)))) /\
    1 <> 0 /\ (1 <= k1)%nat /\ (1 <= k2)%nat /\
    (k1 + k2 <= length (inbox (incoming ([x01; x04] ++ PING))))%nat /\
    0%nat = 0%nat /\ make 100 = make 100 /\
    str (NewRWStream (incoming PING)) =
      with_inbox (skipn (k1 + k2) (inbox (incoming ([x01; x04] ++ PING))))
        (incoming ([x01; x04] ++ PING)).
Proof.
  split; [vm_compute; reflexivity |].
  apply (frame_type_error_consumes_header (make 100) (make 100) 0 1
           (incoming ([x01; x04] ++ PING)) (NewRWStream (incoming PING))).
  vm_compute; reflexivity.
Defined.

(** C5. Every call to [Read] parses a fresh frame header before it delivers
    payload, whatever the conduit holds at that moment (so also when the
    bytes at its front are undelivered payload of a previous frame): a call
    that reports no error found at the front of the conduit a type integer
    equal to 0 and a length integer [l], and delivered the bytes after these
    two, at most [l] of them.  The stream object has the conduit as its only
    field, so no frame progress is carried from one call to the next. *)
Theorem Read_parses_header_every_call
  (p buf : list byte) (n : nat) (s : Pipe) (w' : RWStreamImp Pipe) :
  RWStreamImp_Read p (NewRWStream s) = ((buf, n, None), w') ->
  exists (l : Z) (k1 k2 : nat),
    decode_bytes (inbox s) = (Ok (0, k1), skipn k1 (inbox s)) /\
    decode_bytes (skipn k1 (inbox s)) = (Ok (l, k2), skipn (k1 + k2) (inbox s)) /\
    (1 <= k1)%nat /\ (1 <= k2)%nat /\ (k1 + k2 <= length (inbox s))%nat /\
    let after_header := skipn (k1 + k2) (inbox s) in
    n = Nat.min (Nat.min (Z.to_nat l) (length p)) (length after_header) /\
    buf = firstn n after_header ++ skipn n p /\
    w' = NewRWStream (with_inbox (skipn n after_header) s).
Proof.
  rewrite Read_Pipe. intros E.
  destruct (decode_bytes (inbox s)) as [[[t k1]|e] r1] eqn:E1; [|discriminate].
  destruct (decode_bytes r1) as [[[l k2]|e] r2] eqn:E2; [|discriminate].
  destruct (decode_header_consumes _ _ _ _ _ _ _ E1 E2)
    as (-> & -> & Hk1 & Hk2 & Hlen).
  destruct (Z.eqb_spec t 0) as [->|Ht]; cbn [negb] in E; [|discriminate].
  cbv zeta in E. rewrite frame_capacity in E.
  destruct (Pipe_Read _ _) as [[b err] s'] eqn:Ep.
  injection E as <- <- -> <-.
  apply Pipe_Read_ok in Ep as [-> ->]. cbn [inbox with_inbox] in *.
  exists l, k1, k2. repeat split; try assumption.
  - apply length_firstn.
  - rewrite length_firstn, firstn_min_length. reflexivity.
  - rewrite length_firstn, skipn_min_length. reflexivity.
Qed.

(** The conduit [mid_frame]: after the first two bytes of [payload6] were
    delivered, it holds the four payload bytes still undelivered. *)
Example mid_frame_holds_payload :
  RWStreamImp_Read [x00; x00] (NewRWStream (incoming ([x00; x06] ++ payload6))) =
    (([x41; x42], 2%nat, None), NewRWStream mid_frame) /\
  inbox mid_frame = skipn 2 payload6.
Proof. split; reflexivity. Qed.

Lemma Read_parses_header_every_call_witness :
  RWStreamImp_Read [x00; x00] (NewRWStream mid_frame) =
    (([x43; x44], 2%nat, None), NewRWStream (incoming [])) /\
  exists (l : Z) (k1 k2 : nat),
    decode_bytes (inbox mid_frame) = (Ok (0, k1), skipn k1 (inbox mid_frame)) /\
    decode_bytes (skipn k1 (inbox mid_frame)) =
      (Ok (l, k2), skipn (k1 + k2) (inbox mid_frame)) /\
    (1 <= k1)%nat /\ (1 <= k2)%nat /\ (k1 + k2 <= length (inbox mid_frame))%nat /\
    let after_header := skipn (k1 + k2) (inbox mid_frame) in
    2%nat = Nat.min (Nat.min (Z.to_nat l) (length [x00; x00])) (length after_header) /\
    [x43; x44] = firstn 2 after_header ++ skipn 2 [x00; x00] /\
    NewRWStream (incoming []) =
      NewRWStream (with_inbox (skipn 2 after_header) mid_frame).
Proof.
  split; [vm_compute; reflexivity |].
  apply (Read_parses_header_every_call [x00; x00] [x43; x44] 2 mid_frame
           (NewRWStream (incoming []))).
  vm_compute; reflexivity.
Defined.

(** C1. The code at the claim's own example: a payload of 250 bytes is
    written as one frame and read with buffers of 100 bytes.  The first call
    delivers the first 100 bytes.  The second call does not resume the
    frame: it reads the payload bytes 100..103 as a frame header, fails with
    the frame-type error for type 0x2465 and delivers nothing; the third
    call does the same with the bytes 104..107. *)
Theorem split_read_250_by_100 :
  exists w,
    RWStreamImp_Write payload250 (NewRWStream (incoming [])) =
      Returns ((250%nat, None), w) /\
    let '(r1, w1) := RWStreamImp_Read (make 100) (NewRWStream (deliver (str w))) in
    let '(r2, w2) := RWStreamImp_Read (make 100) w1 in
    let '(r3, w3) := RWStreamImp_Read (make 100) w2 in
    r1 = (firstn 100 payload250, 100%nat, None) /\
    inbox (str w1) = skipn 100 payload250 /\
    r2 = (make 100, 0%nat, Some (IncorrectFrameType 0x2465)) /\
    inbox (str w2) = skipn 104 payload250 /\
    r3 = (make 100, 0%nat, Some (IncorrectFrameType 0x2869)) /\
    inbox (str w3) = skipn 108 payload250.
Proof.
  eexists. split; [vm_compute; reflexivity |].
  vm_compute. repeat split.
Qed.

(** C7, as the code has it.  After a DATA header (in any width) that
    declares [l] bytes, of which only [part] (fewer than [l]) arrive before
    the conduit's clean end-of-data, for every buffer [p] of the caller:
    with no payload byte at all, [Read] returns a count of zero with the
    conduit's [io_EOF] when [p] is not empty, and with no error when [p] is
    empty; with some payload bytes, [Read] returns the first [len(p)] of
    them (all, if they are fewer) with no error.  At end-of-data with no
    frame in progress [Read] returns a count of zero with [io_EOF] for
    every buffer: the same outcome as in the first case. *)
Theorem truncated_frame_reports_conduit_EOF
  (l : Z) (k1 k2 : nat) (bytes after_type part p : list byte) :
  decode_bytes bytes = (Ok (0, k1), after_type) ->
  decode_bytes after_type = (Ok (l, k2), part) ->
  Z.of_nat (length part) < l ->
  RWStreamImp_Read p (NewRWStream (incoming bytes)) =
    match part with
    | [] =>
        ((p, 0%nat, if Nat.eqb (length p) 0 then None else Some io_EOF),
         NewRWStream (incoming []))
    | _ :: _ =>
        ((firstn (length p) part ++ skipn (length (firstn (length p) part)) p,
          length (firstn (length p) part), None),
         NewRWStream (incoming (skipn (length p) part)))
    end /\
  RWStreamImp_Read p (NewRWStream (incoming [])) =
    ((p, 0%nat, Some io_EOF), NewRWStream (incoming [])).
Proof.
  intros Et El Hl. split.
  - rewrite Read_Pipe. cbn [inbox incoming]. rewrite Et, El.
    cbn [Z.eqb negb]. cbv zeta. rewrite frame_capacity.
    destruct part as [|b part].
    + cbn [length] in Hl. unfold Pipe_Read. cbn [inbox with_inbox incoming].
      replace (Nat.eqb (Nat.min (Z.to_nat l) (length p)) 0)
        with (Nat.eqb (length p) 0); [reflexivity|].
      destruct (Nat.eqb_spec (length p) 0) as [E|E];
        destruct (Nat.eqb_spec (Nat.min (Z.to_nat l) (length p)) 0);
        try reflexivity; lia.
    + rewrite Pipe_Read_available by (cbn; discriminate).
      cbn [inbox with_inbox incoming outbox closes].
      rewrite <- (firstn_min_length (Nat.min _ _)), <- (skipn_min_length (Nat.min _ _)).
      rewrite <- (firstn_min_length (length p)), <- (skipn_min_length (length p)).
      replace (Nat.min (Nat.min (Z.to_nat l) (length p)) (length (b :: part)))
        with (Nat.min (length p) (length (b :: part))) by lia.
      reflexivity.
  - rewrite Read_Pipe. reflexivity.
Qed.

Lemma truncated_frame_reports_conduit_EOF_witness :
  decode_bytes [x00; x32] = (Ok (0, 1%nat), [x32]) /\
  decode_bytes [x32] = (Ok (50, 1%nat), []) /\
  Z.of_nat (length (@nil byte)) < 50 /\
  RWStreamImp_Read (make 100) (NewRWStream (incoming [x00; x32])) =
    ((make 100, 0%nat,
      if Nat.eqb (length (make 100)) 0 then None else Some io_EOF),
     NewRWStream (incoming [])) /\
  RWStreamImp_Read (make 100) (NewRWStream (incoming [])) =
    ((make 100, 0%nat, Some io_EOF), NewRWStream (incoming [])).
Proof.
  split; [reflexivity |].
  split; [reflexivity |].
  split; [reflexivity |].
  apply (truncated_frame_reports_conduit_EOF 50 1 1 [x00; x32] [x32] []
           (make 100)); reflexivity.
Defined.

(** The same frame read with an empty buffer: the header is consumed and
    the call returns a count of zero with no error. *)
Example truncated_frame_empty_buffer :
  RWStreamImp_Read [] (NewRWStream (incoming [x00; x32])) =
  (([], 0%nat, None), NewRWStream (incoming [])).
Proof. reflexivity. Qed.

(** C7, the claim as stated fails: a conduit that ends right after a header
    declaring 50 payload bytes makes [Read] return the plain [io_EOF] of the
    conduit, and that is the very outcome of [Read] at a clean end-of-data
    with no frame in progress; the two are not told apart. *)
Lemma truncated_frame_not_distinguished :
  fst (RWStreamImp_Read (make 100) (NewRWStream (incoming [x00; x32]))) =
    (make 100, 0%nat, Some io_EOF) /\
  fst (RWStreamImp_Read (make 100) (NewRWStream (incoming [x00; x32]))) =
  fst (RWStreamImp_Read (make 100) (NewRWStream (incoming []))).
Proof.
  split; vm_compute; reflexivity.
Qed.

(** ** Close *)

(** [Close] on any conduit: [k] calls are [k] calls of the conduit's
    [Close], and their errors come back as the conduit gave them. *)
Lemma Close_times_conduit {C : Type} `{Stream C} (k : nat) :
  forall s : C,
    Close_times k (NewRWStream s) =
    let (es, s') := str_Close_times k s in (es, NewRWStream s').
Proof.
  induction k as [|k IH]; intros s.
  - reflexivity.
  - cbn [Close_times str_Close_times]. unfold bind at 1 3.
    unfold RWStreamImp_Close, w_str. cbn [str NewRWStream].
    destruct (str_Close s) as [e s1]. unfold bind.
    fold (NewRWStream s1). rewrite IH.
    destruct (str_Close_times k s1) as [es s2]. reflexivity.
Qed.

(** The closable conduit reads as the pipe it wraps. *)
Lemma Closable_ReadByte (c : Pipe) :
  @byteReaderImpl_ReadByte Closable _ {| wire := c |} =
  let (r, c') := @byteReaderImpl_ReadByte Pipe _ c in (r, {| wire := c' |}).
Proof.
  unfold byteReaderImpl_ReadByte, bind.
  cbn [str_Read Closable_Stream Pipe_Stream]. unfold Closable_Read. cbn [wire].
  destruct (Pipe_Read 1 c) as [[b [e|]] c']; reflexivity.
Qed.

Lemma Closable_decode_rest (n : nat) :
  forall (acc : Z) (c : Pipe),
    decode_rest (@byteReaderImpl_ReadByte Closable _) n acc {| wire := c |} =
    let (r, c') := decode_rest (@byteReaderImpl_ReadByte Pipe _) n acc c in
    (r, {| wire := c' |}).
Proof.
  induction n as [|n IH]; intros acc c.
  - reflexivity.
  - cbn [decode_rest]. unfold bind. rewrite Closable_ReadByte.
    destruct (@byteReaderImpl_ReadByte Pipe _ c) as [[b [e|]] c'].
    + destruct e; reflexivity.
    + apply IH.
Qed.

Lemma Closable_quicvarint_Read (c : Pipe) :
  w_str (Read (@byteReader_of_str Closable _)) (NewRWStream {| wire := c |}) =
  let (r, w') := w_str (Read (@byteReader_of_str Pipe _)) (NewRWStream c) in
  (r, NewRWStream {| wire := str w' |}).
Proof.
  unfold w_str, Read, decode, byteReader_of_str.
  cbn [str_ReadByte Closable_Stream Pipe_Stream str NewRWStream].
  unfold bind. rewrite Closable_ReadByte.
  destruct (@byteReaderImpl_ReadByte Pipe _ c) as [[b0 [e|]] c1];
    [reflexivity|].
  rewrite Closable_decode_rest.
  destruct (decode_rest _ _ _ c1) as [[v|e] c2]; reflexivity.
Qed.

Lemma Closable_Read_as_Pipe (p : list byte) (c : Pipe) :
  RWStreamImp_Read p (NewRWStream {| wire := c |}) =
  let (r, w') := RWStreamImp_Read p (NewRWStream c) in
  (r, NewRWStream {| wire := str w' |}).
Proof.
  unfold RWStreamImp_Read. cbv zeta. unfold bind at 1 4.
  rewrite Closable_quicvarint_Read.
  destruct (w_str (Read byteReader_of_str) (NewRWStream c)) as [[t [e|]] [c1]];
    [reflexivity|].
  cbn [str]. unfold bind at 1 3.
  change {| str := c1 |} with (NewRWStream c1).
  rewrite Closable_quicvarint_Read.
  destruct (w_str (Read byteReader_of_str) (NewRWStream c1)) as [[l [e|]] [c2]];
    [reflexivity|].
  cbn [str]. destruct (negb (t =? 0)); [reflexivity|].
  unfold bind, w_str, ret.
  cbn [str NewRWStream str_Read Closable_Stream Pipe_Stream].
  unfold Closable_Read.
  destruct (l <? uint64_len p); cbn [str wire NewRWStream];
    match goal with
    | |- context [Pipe_Read ?n ?x] => destruct (Pipe_Read n x) as [[b err] c3]
    end; reflexivity.
Qed.

(** C8, as the code has it.  Every call of [Close] makes one call of the
    conduit's [Close] and returns its error as the conduit gave it: [k]
    calls are [k] calls of the conduit's [Close] in a row, on any conduit.
    The stream keeps no closed flag and has no error of its own for use
    after [Close]: a [Read] or a [Write] after [Close] is carried out on
    the conduit.  On the conduit that once closed refuses writes and
    further [Close] calls with its own errors and still hands out what it
    received: the first [Close] returns nil, the second reaches the conduit
    again and returns the conduit's error, a [Write] after [Close] returns
    a count of 0 with the conduit's error, and a [Read] after [Close]
    delivers the payload of the next frame with no error. *)
Theorem Close_calls_conduit_every_time (P rest p Q : list byte) (c : Pipe) :
  closes c = 0%nat ->
  Z.of_nat (length P) <= maxVarInt8 ->
  Z.of_nat (length Q) <= maxVarInt8 ->
  inbox c = frame P ++ rest ->
  (length P <= length p)%nat ->
  (forall (C : Type) (HC : Stream C) (k : nat) (s : C),
      Close_times k (NewRWStream s) =
      let (es, s') := str_Close_times k s in (es, NewRWStream s')) /\
  let closed1 :=
    {| wire := {| inbox := inbox c; outbox := outbox c; closes := 1 |} |} in
  let closed2 :=
    {| wire := {| inbox := inbox c; outbox := outbox c; closes := 2 |} |} in
  RWStreamImp_Close (NewRWStream {| wire := c |}) =
    (None, NewRWStream closed1) /\
  RWStreamImp_Close (NewRWStream closed1) =
    (Some (ConduitError 3), NewRWStream closed2) /\
  RWStreamImp_Write Q (NewRWStream closed1) =
    Returns ((0%nat, Some (ConduitError 2)), NewRWStream closed1) /\
  RWStreamImp_Read p (NewRWStream closed1) =
    ((P ++ skipn (length P) p, length P, None),
     NewRWStream
       {| wire := {| inbox := rest; outbox := outbox c; closes := 1 |} |}).
Proof.
  intros Hopen HP HQ Ei Hfit.
  split; [intros C HC k s; apply Close_times_conduit |].
  cbv zeta. split; [|split; [|split]].
  - unfold RWStreamImp_Close, w_str.
    cbn [str NewRWStream str_Close Closable_Stream]. unfold Closable_Close.
    cbn [wire Pipe_Close closes inbox outbox]. rewrite Hopen. reflexivity.
  - reflexivity.
  - destruct (dataFrame_Write_header (uint64_len Q)) as (lb & _ & _ & Hh).
    { unfold uint64_len. lia. }
    unfold RWStreamImp_Write. cbv zeta. rewrite Hh. reflexivity.
  - rewrite Closable_Read_as_Pipe.
    destruct (encode_in_range (Z.of_nat (length P)) ltac:(lia)) as (lb & El & _).
    unfold frame, uint64_len in Ei. rewrite El in Ei.
    rewrite (Read_one_frame lb P rest p
               {| inbox := inbox c; outbox := outbox c; closes := 1 |} El);
      [reflexivity | | exact Hfit].
    cbn [inbox]. rewrite Ei. cbn [app]. rewrite <- app_assoc. reflexivity.
Qed.

Lemma Close_calls_conduit_every_time_witness :
  closes (incoming (frame PONG)) = 0%nat /\
  Z.of_nat (length PONG) <= maxVarInt8 /\
  Z.of_nat (length PING) <= maxVarInt8 /\
  inbox (incoming (frame PONG)) = frame PONG ++ [] /\
  (length PONG <= length (make 100))%nat /\
  (forall (C : Type) (HC : Stream C) (k : nat) (s : C),
      Close_times k (NewRWStream s) =
      let (es, s') := str_Close_times k s in (es, NewRWStream s')) /\
  let c := incoming (frame PONG) in
  let closed1 :=
    {| wire := {| inbox := inbox c; outbox := outbox c; closes := 1 |} |} in
  let closed2 :=
    {| wire := {| inbox := inbox c; outbox := outbox c; closes := 2 |} |} in
  RWStreamImp_Close (NewRWStream {| wire := c |}) =
    (None, NewRWStream closed1) /\
  RWStreamImp_Close (NewRWStream closed1) =
    (Some (ConduitError 3), NewRWStream closed2) /\
  RWStreamImp_Write PING (NewRWStream closed1) =
    Returns ((0%nat, Some (ConduitError 2)), NewRWStream closed1) /\
  RWStreamImp_Read (make 100) (NewRWStream closed1) =
    ((PONG ++ skipn (length PONG) (make 100), length PONG, None),
     NewRWStream
       {| wire := {| inbox := []; outbox := outbox c; closes := 1 |} |}).
Proof.
  split; [reflexivity |].
  split; [vm_compute; discriminate |].
  split; [vm_compute; discriminate |].
  split; [reflexivity |].
  split; [vm_compute; lia |].
  apply (Close_calls_conduit_every_time PONG [] (make 100) PING
           (incoming (frame PONG)));
    [reflexivity | vm_compute; discriminate | vm_compute; discriminate
    | reflexivity | vm_compute; lia].
Defined.

(** C8, the claim as stated fails: after two calls of [Close] the conduit
    has been closed twice, not once. *)
Lemma Close_twice_closes_conduit_twice :
  closes (str (snd (Close_times 2 (NewRWStream (incoming []))))) = 2%nat /\
  closes (str (snd (Close_times 2 (NewRWStream (incoming []))))) <> 1%nat.
Proof.
  split; [reflexivity | discriminate].
Qed.

(** ** Write: the returned count and the header's error *)

Section WriteResult.
Context {C : Type} `{Stream C}.

(** Go's [io.Writer] contract: a write that returns no error accepted all
    the bytes. *)
Hypothesis io_Writer_contract :
  forall (b : list byte) (s s' : C) (n : nat),
    str_Write b s = ((n, None), s') -> n = length b.

(** C10. [Write] sends the header and the payload in two writes of the
    conduit.  If the first one returns an error, [Write] returns a count of
    0 with that error, whatever count the conduit reported, and the conduit
    stays as the header write left it: the payload is not written.
    Otherwise the header was accepted in full and [Write] returns what the
    conduit's write of the payload returns: the count of payload bytes
    accepted, without the header's bytes, and its error. *)
Theorem Write_count_and_header_error (P : list byte) (w : RWStreamImp C) :
  Z.of_nat (length P) <= maxVarInt8 ->
  exists hdr,
    dataFrame_Write {| Length := uint64_len P |} [] = Returns hdr /\
    match str_Write hdr (str w) with
    | ((n, Some e), s1) =>
        RWStreamImp_Write P w = Returns ((0%nat, Some e), NewRWStream s1)
    | ((n, None), s1) =>
        n = length hdr /\
        RWStreamImp_Write P w =
        Returns (let (r, s2) := str_Write P s1 in (r, NewRWStream s2))
    end.
Proof.
  intros HP.
  destruct (dataFrame_Write_header (uint64_len P)) as (lb & _ & _ & Hh).
  { unfold uint64_len. lia. }
  exists (x00 :: lb). split; [exact Hh|].
  unfold RWStreamImp_Write. cbv zeta. rewrite Hh.
  unfold bind, w_str.
  destruct (str_Write (x00 :: lb) (str w)) as [[n [e|]] s1] eqn:Eh.
  - reflexivity.
  - split; [exact (io_Writer_contract _ _ _ _ Eh) | reflexivity].
Qed.

End WriteResult.

Lemma Write_count_and_header_error_witness :
  (forall (b : list byte) (s s' : Narrow) (n : nat),
      str_Write b s = ((n, None), s') -> n = length b) /\
  Z.of_nat (length PING) <= maxVarInt8 /\
  exists hdr,
    dataFrame_Write {| Length := uint64_len PING |} [] = Returns hdr /\
    match str_Write hdr (str (NewRWStream {| accepted := []; room := 1 |})) with
    | ((n, Some e), s1) =>
        RWStreamImp_Write PING (NewRWStream {| accepted := []; room := 1 |}) =
        Returns ((0%nat, Some e), NewRWStream s1)
    | ((n, None), s1) =>
        n = length hdr /\
        RWStreamImp_Write PING (NewRWStream {| accepted := []; room := 1 |}) =
        Returns (let (r, s2) := str_Write PING s1 in (r, NewRWStream s2))
    end.
Proof.
  split; [exact Narrow_Writer_contract |].
  split; [vm_compute; discriminate |].
  apply (Write_count_and_header_error Narrow_Writer_contract PING
           (NewRWStream {| accepted := []; room := 1 |})).
  vm_compute; discriminate.
Defined.

(** The conduit of the witness above has room for one byte: it accepts the
    first header byte and rejects the write; [Write] reports a count of 0
    with the conduit's error and the payload never reaches the conduit. *)
Example Write_header_rejected :
  RWStreamImp_Write PING (NewRWStream {| accepted := []; room := 1 |}) =
  Returns ((0%nat, Some (ConduitError 1)),
           NewRWStream {| accepted := [x00]; room := 0 |}).
Proof. reflexivity. Qed.

(** With room for the header and half of the payload, the count is that of
    the payload bytes accepted. *)
Example Write_payload_cut_short :
  RWStreamImp_Write PING (NewRWStream {| accepted := []; room := 4 |}) =
  Returns ((2%nat, Some (ConduitError 1)),
           NewRWStream {| accepted := [x00; x04; x50; x49]; room := 0 |}).
Proof. reflexivity. Qed.

(** * Further properties *)

(** ** Frames on the pipe *)

Lemma frame_bytes (P : list byte) :
  Z.of_nat (length P) <= maxVarInt8 ->
  exists lb,
    encode (Z.of_nat (length P)) = Ok lb /\ (1 <= length lb <= 8)%nat /\
    frame P = [x00] ++ lb ++ P.
Proof.
  intros HP. destruct (encode_in_range (Z.of_nat (length P))) as (lb & E & Hl);
    [lia|].
  exists lb. unfold frame, uint64_len. rewrite E. repeat split; tauto.
Qed.

Lemma Write_Pipe_frame (P : list byte) (s : Pipe) :
  Z.of_nat (length P) <= maxVarInt8 ->
  RWStreamImp_Write P (NewRWStream s) =
  Returns ((length P, None),
           NewRWStream {| inbox := inbox s; outbox := outbox s ++ frame P;
                          closes := closes s |}).
Proof.
  intros HP. destruct (Write_Pipe P s HP) as (lb & El & Ew).
  rewrite Ew. unfold frame, uint64_len. rewrite El. reflexivity.
Qed.

Lemma Read_Pipe_frame (P rest p : list byte) (s : Pipe) :
  Z.of_nat (length P) <= maxVarInt8 ->
  inbox s = frame P ++ rest ->
  (length P <= length p)%nat ->
  RWStreamImp_Read p (NewRWStream s) =
  ((overlay p P, length P, None), NewRWStream (with_inbox rest s)).
Proof.
  intros HP Ei Hfit. destruct (frame_bytes P HP) as (lb & El & _ & Ef).
  apply (Read_one_frame lb P rest p s El); [|exact Hfit].
  rewrite Ei, Ef, <- !app_assoc. reflexivity.
Qed.

Lemma overlay_length (buf msg : list byte) :
  (length msg <= length buf)%nat -> length (overlay buf msg) = length buf.
Proof.
  intros Hm. unfold overlay. rewrite length_app, length_skipn. lia.
Qed.

(** X1. [dataFrame.Write]: for a length that a header can carry, the bytes
    appended to the buffer decode to the DATA type and that length, and the
    buffer's earlier content stays in front of them. *)
Theorem dataFrame_Write_header_decodes (L : Z) (b rest : list byte) :
  0 <= L <= maxVarInt8 ->
  exists lb,
    dataFrame_Write {| Length := L |} b = Returns (b ++ x00 :: lb) /\
    (2 <= length (x00 :: lb) <= 9)%nat /\
    decode_bytes ((x00 :: lb) ++ rest) = (Ok (0, 1%nat), lb ++ rest) /\
    decode_bytes (lb ++ rest) = (Ok (L, length lb), rest).
Proof.
  intros HL. destruct (encode_in_range L HL) as (lb & El & Hl).
  exists lb. split; [|split; [|split]].
  - unfold dataFrame_Write, Write. rewrite encode_0. cbn [Length].
    rewrite El, <- app_assoc. reflexivity.
  - cbn [length]. lia.
  - exact (decode_encode 0 [x00] (lb ++ rest) encode_0).
  - exact (decode_encode L lb rest El).
Qed.

Lemma dataFrame_Write_header_decodes_witness :
  0 <= 250 <= maxVarInt8 /\
  exists lb,
    dataFrame_Write {| Length := 250 |} PING = Returns (PING ++ x00 :: lb) /\
    (2 <= length (x00 :: lb) <= 9)%nat /\
    decode_bytes ((x00 :: lb) ++ PONG) = (Ok (0, 1%nat), lb ++ PONG) /\
    decode_bytes (lb ++ PONG) = (Ok (250, length lb), PONG).
Proof.
  split; [vm_compute; split; discriminate |].
  apply (dataFrame_Write_header_decodes 250 PING PONG).
  vm_compute; split; discriminate.
Defined.

(** X2. [Read] never crosses into the next frame: with a DATA frame carrying [P]
    at the front of the conduit, whatever follows it and whatever the size
    of the caller's buffer, one call delivers the first
    [min(len(P), len(p))] bytes of [P] with no error, and everything after
    these bytes stays in the conduit. *)
Theorem Read_stays_within_frame (P rest p : list byte) (s : Pipe) :
  Z.of_nat (length P) <= maxVarInt8 ->
  inbox s = frame P ++ rest ->
  RWStreamImp_Read p (NewRWStream s) =
  ((firstn (length p) P ++ skipn (Nat.min (length P) (length p)) p,
    Nat.min (length P) (length p), None),
   NewRWStream (with_inbox (skipn (length p) P ++ rest) s)).
Proof.
  intros HP Ei. destruct (frame_bytes P HP) as (lb & El & _ & Ef).
  rewrite Ef, <- !app_assoc in Ei.
  rewrite (Read_DATA_frame _ lb (P ++ rest) p s El Ei).
  cbv zeta. rewrite frame_capacity, Nat2Z.id.
  set (n := Nat.min (length P) (length p)).
  assert (Hfirst : firstn n (P ++ rest) = firstn (length p) P).
  { rewrite firstn_app. replace (n - length P)%nat with 0%nat by lia.
    cbn [firstn]. rewrite app_nil_r. unfold n.
    rewrite Nat.min_comm. apply firstn_min_length. }
  assert (Hskip : skipn n (P ++ rest) = skipn (length p) P ++ rest).
  { rewrite skipn_app. replace (n - length P)%nat with 0%nat by lia.
    cbn [skipn]. f_equal. unfold n.
    rewrite Nat.min_comm. apply skipn_min_length. }
  assert (Hlen : length (firstn (length p) P) = n).
  { rewrite length_firstn. unfold n. lia. }
  destruct (P ++ rest) as [|x body] eqn:Eb.
  - assert (n = 0%nat) as Hn.
    { apply (f_equal (@length byte)) in Eb. rewrite length_app in Eb.
      cbn in Eb. lia. }
    rewrite Hn in *. rewrite Pipe_Read_nothing. cbn [inbox with_inbox skipn].
    rewrite <- Hfirst, <- Hskip. reflexivity.
  - rewrite Pipe_Read_available by (cbn; discriminate).
    cbn [inbox with_inbox outbox closes].
    rewrite Hfirst, Hskip, Hlen. reflexivity.
Qed.

Lemma Read_stays_within_frame_witness :
  Z.of_nat (length PONG) <= maxVarInt8 /\
  inbox (incoming (frame PONG ++ frame OK)) = frame PONG ++ frame OK /\
  RWStreamImp_Read (make 100) (NewRWStream (incoming (frame PONG ++ frame OK))) =
  ((firstn (length (make 100)) PONG
      ++ skipn (Nat.min (length PONG) (length (make 100))) (make 100),
    Nat.min (length PONG) (length (make 100)), None),
   NewRWStream (with_inbox (skipn (length (make 100)) PONG ++ frame OK)
                  (incoming (frame PONG ++ frame OK)))).
Proof.
  split; [vm_compute; discriminate |].
  split; [reflexivity |].
  apply (Read_stays_within_frame PONG (frame OK) (make 100)
           (incoming (frame PONG ++ frame OK)));
    [vm_compute; discriminate | reflexivity].
Defined.

(** X3. Frames come out one per call and in order: after two writes, two reads
    at the receiving end into the same buffer (large enough for each
    payload) deliver the first payload, then the second, although the
    buffer had room for both at once; the second payload overwrites the
    front of the first in the buffer, and the conduit ends up empty. *)
Theorem two_frames_round_trip (P1 P2 p : list byte) :
  Z.of_nat (length P1) <= maxVarInt8 ->
  Z.of_nat (length P2) <= maxVarInt8 ->
  (length P1 <= length p)%nat ->
  (length P2 <= length p)%nat ->
  exists w1 w2,
    RWStreamImp_Write P1 (NewRWStream (incoming [])) =
      Returns ((length P1, None), w1) /\
    RWStreamImp_Write P2 w1 = Returns ((length P2, None), w2) /\
    outbox (str w2) = frame P1 ++ frame P2 /\
    RWStreamImp_Read p (NewRWStream (deliver (str w2))) =
      ((overlay p P1, length P1, None), NewRWStream (incoming (frame P2))) /\
    RWStreamImp_Read (overlay p P1) (NewRWStream (incoming (frame P2))) =
      ((overlay (overlay p P1) P2, length P2, None), NewRWStream (incoming [])).
Proof.
  intros H1 H2 Hf1 Hf2.
  eexists. eexists. split; [apply (Write_Pipe_frame P1 _ H1)|].
  split; [apply (Write_Pipe_frame P2 _ H2)|].
  cbn [str NewRWStream outbox inbox closes incoming deliver app].
  split; [reflexivity|]. split.
  - apply (Read_Pipe_frame P1 (frame P2) p (incoming (frame P1 ++ frame P2)) H1);
      [reflexivity | exact Hf1].
  - apply (Read_Pipe_frame P2 [] (overlay p P1) (incoming (frame P2)) H2).
    + cbn [inbox incoming]. rewrite app_nil_r. reflexivity.
    + rewrite overlay_length by exact Hf1. exact Hf2.
Qed.

Lemma two_frames_round_trip_witness :
  Z.of_nat (length PONG) <= maxVarInt8 /\
  Z.of_nat (length OK) <= maxVarInt8 /\
  (length PONG <= length (make 100))%nat /\
  (length OK <= length (make 100))%nat /\
  exists w1 w2,
    RWStreamImp_Write PONG (NewRWStream (incoming [])) =
      Returns ((length PONG, None), w1) /\
    RWStreamImp_Write OK w1 = Returns ((length OK, None), w2) /\
    outbox (str w2) = frame PONG ++ frame OK /\
    RWStreamImp_Read (make 100) (NewRWStream (deliver (str w2))) =
      ((overlay (make 100) PONG, length PONG, None),
       NewRWStream (incoming (frame OK))) /\
    RWStreamImp_Read (overlay (make 100) PONG) (NewRWStream (incoming (frame OK))) =
      ((overlay (overlay (make 100) PONG) OK, length OK, None),
       NewRWStream (incoming [])).
Proof.
  split; [vm_compute; discriminate |].
  split; [vm_compute; discriminate |].
  split; [vm_compute; lia |].
  split; [vm_compute; lia |].
  apply (two_frames_round_trip PONG OK (make 100));
    [vm_compute; discriminate | vm_compute; discriminate
    | vm_compute; lia | vm_compute; lia].
Defined.

(** X4. An empty payload is a frame of its own.  [Write] of no bytes puts the
    two bytes 00 00 on the conduit; [Read] of such a frame returns a count of
    0 with no error, leaves the buffer as it was and the following bytes in
    the conduit, whereas at the end of the data [Read] returns a count of 0
    with [io_EOF]. *)
Theorem empty_frame_is_not_end_of_data (p rest : list byte) (s : Pipe) :
  RWStreamImp_Write [] (NewRWStream s) =
    Returns ((0%nat, None),
             NewRWStream {| inbox := inbox s; outbox := outbox s ++ [x00; x00];
                            closes := closes s |}) /\
  RWStreamImp_Read p (NewRWStream (with_inbox ([x00; x00] ++ rest) s)) =
    ((p, 0%nat, None), NewRWStream (with_inbox rest s)) /\
  RWStreamImp_Read p (NewRWStream (with_inbox [] s)) =
    ((p, 0%nat, Some io_EOF), NewRWStream (with_inbox [] s)).
Proof.
  split; [|split].
  - apply (Write_Pipe_frame [] s). vm_compute. discriminate.
  - apply (Read_Pipe_frame [] rest p (with_inbox ([x00; x00] ++ rest) s)).
    + vm_compute. discriminate.
    + reflexivity.
    + cbn. lia.
  - rewrite Read_Pipe. reflexivity.
Qed.

(** ** The stream as an [io.Reader] and an [io.Writer] *)

Section Contracts.
Context {C : Type} `{Stream C}.

(** Go's [io.Reader] contract for the conduit: a read stores at most as many
    bytes as the buffer holds. *)
Hypothesis io_Reader_contract :
  forall (n : nat) (s : C), (length (fst (fst (str_Read n s))) <= n)%nat.

(** X5. [Read] keeps the contract it is given: on any conduit whose read
    stores at most the bytes asked for, the count [Read] returns never
    exceeds the length of the caller's buffer. *)
Theorem Read_keeps_io_Reader_contract (p : list byte) (w : RWStreamImp C) :
  let '((_, n, _), _) := RWStreamImp_Read p w in (n <= length p)%nat.
Proof.
  unfold RWStreamImp_Read. cbv zeta. unfold bind at 1.
  destruct (w_str (Read byteReader_of_str) w) as [[t [e|]] w1].
  { cbn. lia. }
  unfold bind at 1.
  destruct (w_str (Read byteReader_of_str) w1) as [[l [e|]] w2].
  { cbn. lia. }
  destruct (negb (t =? 0)).
  { cbn. lia. }
  assert (Hcap : Nat.le (if l <? uint64_len p then Z.to_nat l else length p)
                         (length p)) by (rewrite frame_capacity; lia).
  unfold bind, w_str, ret.
  destruct (l <? uint64_len p);
    match goal with
    | |- context [str_Read ?n ?s] =>
        pose proof (io_Reader_contract n s) as Hb;
        destruct (str_Read n s) as [[b err] s3]
    end; cbn [fst] in Hb; lia.
Qed.

End Contracts.

Lemma Pipe_Reader_contract (n : nat) (s : Pipe) :
  (length (fst (fst (str_Read n s))) <= n)%nat.
Proof.
  cbn [str_Read Pipe_Stream]. unfold Pipe_Read.
  destruct (inbox s); cbn [fst]; [cbn; lia | rewrite length_firstn; lia].
Qed.

Lemma Read_keeps_io_Reader_contract_witness :
  (forall (n : nat) (s : Pipe), (length (fst (fst (str_Read n s))) <= n)%nat) /\
  let '((_, n, _), _) :=
    RWStreamImp_Read [x00; x00] (NewRWStream (incoming (frame PONG))) in
  (n <= length [x00; x00])%nat.
Proof.
  split; [exact Pipe_Reader_contract |].
  apply (Read_keeps_io_Reader_contract Pipe_Reader_contract [x00; x00]
           (NewRWStream (incoming (frame PONG)))).
Defined.

Lemma encode_error (v : Z) (e : error) :
  encode v = Err e -> v < 0 \/ maxVarInt8 < v.
Proof.
  unfold encode, maxVarInt1, maxVarInt2, maxVarInt4, maxVarInt8.
  destruct (Z.ltb_spec v 0); [lia|].
  destruct (Z.leb_spec v 63); [discriminate|].
  destruct (Z.leb_spec v 16383); [discriminate|].
  destruct (Z.leb_spec v 1073741823); [discriminate|].
  destruct (Z.leb_spec v 4611686018427387903); [discriminate|]. lia.
Qed.

Section WriterContract.
Context {C : Type} `{Stream C}.

(** Go's [io.Writer] contract for the conduit: a write accepts at most the
    bytes it is given, and all of them if it reports no error. *)
Hypothesis io_Writer_contract :
  forall (b : list byte) (s : C),
    (fst (fst (str_Write b s)) <= length b)%nat /\
    (snd (fst (str_Write b s)) = None ->
     fst (fst (str_Write b s)) = length b).

(** X6. [Write] keeps the contract it is given: on any conduit that keeps
    [io.Writer]'s contract, the count [Write] returns never exceeds
    [len(p)], and equals [len(p)] whenever no error is returned, so a short
    count always comes with an error.  [Write] panics only for a payload of
    more than 2^62-1 bytes. *)
Theorem Write_keeps_io_Writer_contract (P : list byte) (w : RWStreamImp C) :
  match RWStreamImp_Write P w with
  | Returns ((n, err), _) =>
      (n <= length P)%nat /\ (err = None -> n = length P)
  | Panics _ => maxVarInt8 < Z.of_nat (length P)
  end.
Proof.
  unfold RWStreamImp_Write. cbv zeta.
  unfold dataFrame_Write, Write. rewrite encode_0. cbn [Length app].
  destruct (encode (uint64_len P)) as [lb|e] eqn:El.
  - unfold bind, w_str, ret.
    destruct (str_Write (x00 :: lb) (str w)) as [[n0 [e|]] s1].
    + cbv beta iota. split; [lia | discriminate].
    + cbv beta iota. cbn [str]. pose proof (io_Writer_contract P s1) as [Hle Hall].
      destruct (str_Write P s1) as [[n err] s2]. cbn [fst snd] in Hle, Hall.
      cbv beta iota. split; assumption.
  - apply encode_error in El. unfold uint64_len in El. lia.
Qed.

(** X7. [ReadByte] does not look at the count of the conduit's read.  When the
    conduit answers the two one-byte reads for the header with no byte and
    no error, [Read] takes each as the byte 0: a DATA header of length 0,
    followed by a read of zero bytes whose outcome it returns. *)
Theorem Read_takes_no_byte_as_zero (p : list byte) (s s1 s2 : C) :
  str_ReadByte = None ->
  str_Read 1 s = (([], None), s1) ->
  str_Read 1 s1 = (([], None), s2) ->
  RWStreamImp_Read p (NewRWStream s) =
  let '((b, err), s3) := str_Read 0 s2 in
  ((b ++ skipn (length b) p, length b, err), NewRWStream s3).
Proof.
  intros Hbr E1 E2.
  assert (Hhdr : forall s s', str_Read 1 s = (([], None), s') ->
            w_str (Read byteReader_of_str) (NewRWStream s) =
            ((0, None), NewRWStream s')).
  { intros x x' Ex. unfold w_str, Read, decode, byteReader_of_str.
    rewrite Hbr. unfold byteReaderImpl_ReadByte, bind. cbn [str NewRWStream].
    rewrite Ex. reflexivity. }
  unfold RWStreamImp_Read. cbv zeta. unfold bind at 1.
  rewrite (Hhdr s s1 E1). unfold bind at 1. rewrite (Hhdr s1 s2 E2).
  cbn [Z.eqb negb]. unfold bind, w_str, ret, uint64_len.
  assert (Hcap : (if 0 <? Z.of_nat (length p) then Z.to_nat 0 else length p)
                 = 0%nat).
  { destruct (Z.ltb_spec 0 (Z.of_nat (length p))); [reflexivity | lia]. }
  destruct (0 <? Z.of_nat (length p)); cbn [str NewRWStream];
    [change (Z.to_nat 0) with 0%nat | rewrite Hcap];
    destruct (str_Read 0 s2) as [[b err] s3]; reflexivity.
Qed.

End WriterContract.

Lemma Narrow_io_Writer_contract (b : list byte) (s : Narrow) :
  (fst (fst (str_Write b s)) <= length b)%nat /\
  (snd (fst (str_Write b s)) = None -> fst (fst (str_Write b s)) = length b).
Proof.
  cbn [str_Write Narrow_Stream]. unfold Narrow_Write.
  destruct (Nat.leb_spec (length b) (room s)); cbn [fst snd].
  - split; [lia | reflexivity].
  - split; [lia | discriminate].
Qed.

Lemma Write_keeps_io_Writer_contract_witness :
  (forall (b : list byte) (s : Narrow),
      (fst (fst (str_Write b s)) <= length b)%nat /\
      (snd (fst (str_Write b s)) = None ->
       fst (fst (str_Write b s)) = length b)) /\
  match RWStreamImp_Write PING (NewRWStream {| accepted := []; room := 4 |}) with
  | Returns ((n, err), _) =>
      (n <= length PING)%nat /\ (err = None -> n = length PING)
  | Panics _ => maxVarInt8 < Z.of_nat (length PING)
  end.
Proof.
  split; [exact Narrow_io_Writer_contract |].
  apply (Write_keeps_io_Writer_contract Narrow_io_Writer_contract PING
           (NewRWStream {| accepted := []; room := 4 |})).
Defined.

Lemma Read_takes_no_byte_as_zero_witness :
  @str_ReadByte Stalled _ = None /\
  str_Read 1 {| reads := 0 |} = (([], None), {| reads := 1 |}) /\
  str_Read 1 {| reads := 1 |} = (([], None), {| reads := 2 |}) /\
  RWStreamImp_Read (make 100) (NewRWStream {| reads := 0 |}) =
  let '((b, err), s3) := str_Read 0 {| reads := 2 |} in
  ((b ++ skipn (length b) (make 100), length b, err), NewRWStream s3).
Proof.
  split; [reflexivity |].
  split; [reflexivity |].
  split; [reflexivity |].
  apply (Read_takes_no_byte_as_zero (make 100)
           {| reads := 0 |} {| reads := 1 |} {| reads := 2 |});
    reflexivity.
Defined.

(** On the conduit that never has a byte, this is a read that succeeds with
    nothing: after three reads of the conduit, a count of 0 and no error. *)
Example Read_on_stalled_conduit :
  RWStreamImp_Read (make 100) (NewRWStream {| reads := 0 |}) =
  ((make 100, 0%nat, None), NewRWStream {| reads := 3 |}).
Proof. reflexivity. Qed.

(** ** The handler on the pipe *)

Lemma round_events_app (msgs : list (list byte)) :
  forall (buf : list byte) (m : list byte),
    round_events (msgs ++ [m]) buf =
    round_events msgs buf ++
    [Log_PingSent; Log_Message (overlay (fold_left overlay msgs buf) m); Sleep_1s].
Proof.
  induction msgs as [|x msgs IH]; intros buf m.
  - reflexivity.
  - cbn [app round_events fold_left]. rewrite IH. reflexivity.
Qed.

Lemma fold_overlay_length (msgs : list (list byte)) :
  forall buf : list byte,
    Forall (fun m => length m <= length buf)%nat msgs ->
    length (fold_left overlay msgs buf) = length buf.
Proof.
  induction msgs as [|x msgs IH]; intros buf Hm.
  - reflexivity.
  - inversion Hm as [|? ? Hx Hrest]; subst. cbn [fold_left].
    rewrite IH; rewrite overlay_length by exact Hx; [reflexivity | exact Hrest].
Qed.

Lemma PING_fits : Z.of_nat (length PING) <= maxVarInt8.
Proof. vm_compute. discriminate. Qed.

(** The rounds in which a message arrives: each one writes a PING frame,
    reads the message into the buffer and goes on with the next round. *)
Lemma ServeHTTP_loop_rounds (msgs : list (list byte)) :
  forall (m : nat) (buf tail : list byte) (s : Pipe),
    Forall (fun x => length x <= length buf)%nat msgs ->
    Z.of_nat (length buf) <= maxVarInt8 ->
    inbox s = concat (map frame msgs) ++ tail ->
    ServeHTTP_loop (length msgs + m) buf (NewRWStream s) =
    let '(evs, r) :=
      ServeHTTP_loop m (fold_left overlay msgs buf)
        (NewRWStream
           {| inbox := tail;
              outbox := outbox s ++ concat (repeat (frame PING) (length msgs));
              closes := closes s |}) in
    (round_events msgs buf ++ evs, r).
Proof.
  induction msgs as [|x msgs IH]; intros m buf tail s Hfit Hbuf Ei.
  - cbn [length Nat.add fold_left repeat concat round_events app].
    cbn [map concat app] in Ei. rewrite app_nil_r, <- Ei.
    replace {| inbox := inbox s; outbox := outbox s; closes := closes s |}
      with s by (destruct s; reflexivity).
    destruct (ServeHTTP_loop m buf (NewRWStream s)) as [evs r]. reflexivity.
  - inversion Hfit as [|? ? Hx Hrest]; subst.
    cbn [length Nat.add ServeHTTP_loop].
    rewrite (Write_Pipe_frame PING s PING_fits).
    cbn [map concat] in Ei. rewrite <- app_assoc in Ei.
    rewrite (Read_Pipe_frame x (concat (map frame msgs) ++ tail) buf
               {| inbox := inbox s; outbox := outbox s ++ frame PING;
                  closes := closes s |}); [| lia | exact Ei | exact Hx].
    rewrite (IH m (overlay buf x) tail).
    + cbn [outbox closes with_inbox fold_left repeat concat round_events].
      rewrite <- !app_assoc.
      destruct (ServeHTTP_loop m _ _) as [evs r]. reflexivity.
    + rewrite overlay_length by exact Hx. exact Hrest.
    + rewrite overlay_length by exact Hx. exact Hbuf.
    + reflexivity.
Qed.

Lemma concat_repeat_snoc {A : Type} (f : list A) (k : nat) :
  concat (repeat f k) ++ f = concat (repeat f (S k)).
Proof.
  induction k as [|k IH].
  - cbn. rewrite app_nil_r. reflexivity.
  - cbn [repeat concat] in *. rewrite <- app_assoc, IH. reflexivity.
Qed.

Lemma make_length (n : nat) : length (make n) = n.
Proof. apply repeat_length. Qed.

Lemma split_ten (k : nat) : (k < 10)%nat -> exists m, (10 = k + S m)%nat.
Proof. intros Hk. exists (9 - k)%nat. lia. Qed.

(** The round in which the read fails is the last one. *)
Lemma ServeHTTP_loop_read_error
  (m n : nat) (buf buf' : list byte) (e : error) (s : Pipe)
  (w' : RWStreamImp Pipe) :
  RWStreamImp_Read buf
    (NewRWStream {| inbox := inbox s; outbox := outbox s ++ frame PING;
                    closes := closes s |}) = ((buf', n, Some e), w') ->
  ServeHTTP_loop (S m) buf (NewRWStream s) =
  ([Log_PingSent; Log_ReadError e], (w', None)).
Proof.
  intros Er. cbn [ServeHTTP_loop].
  rewrite (Write_Pipe_frame PING s PING_fits), Er. reflexivity.
Qed.

(** X8. A full exchange.  When the client's first ten frames are DATA frames of
    at most 100 bytes each, the handler writes exactly ten PING frames,
    reads exactly these ten frames (what follows them stays in the conduit),
    logs each message, and closes the conduit once. *)
Theorem ServeHTTP_ten_rounds (msgs : list (list byte)) (tail : list byte) (s : Pipe) :
  length msgs = 10%nat ->
  Forall (fun m => length m <= 100)%nat msgs ->
  inbox s = concat (map frame msgs) ++ tail ->
  ServeHTTP s =
  (Log_NewRequest :: WriteHeader 101 :: round_events msgs (make 100),
   ({| inbox := tail;
       outbox := outbox s ++ concat (repeat (frame PING) 10);
       closes := S (closes s) |}, None)).
Proof.
  intros Hlen Hfit Ei.
  pose proof (ServeHTTP_loop_rounds msgs 0 (make 100) tail s) as E.
  rewrite make_length, Nat.add_0_r, Hlen in E.
  unfold ServeHTTP. cbv zeta. rewrite E; [| exact Hfit | vm_compute; discriminate | exact Ei].
  cbn [ServeHTTP_loop]. rewrite app_nil_r. reflexivity.
Qed.

(** X9. The client stops early.  When the client sends [k < 10] DATA frames of
    at most 100 bytes each and then ends the stream, the handler writes
    [k + 1] PING frames: it learns of the end only from the read that
    follows one more PING, logs that read's [io_EOF] as an error, writes
    nothing more and closes the conduit once. *)
Theorem ServeHTTP_client_ends_early (msgs : list (list byte)) (s : Pipe) :
  (length msgs < 10)%nat ->
  Forall (fun m => length m <= 100)%nat msgs ->
  inbox s = concat (map frame msgs) ->
  ServeHTTP s =
  (Log_NewRequest :: WriteHeader 101
     :: round_events msgs (make 100) ++ [Log_PingSent; Log_ReadError io_EOF],
   ({| inbox := [];
       outbox := outbox s ++ concat (repeat (frame PING) (S (length msgs)));
       closes := S (closes s) |}, None)).
Proof.
  intros Hlen Hfit Ei. destruct (split_ten _ Hlen) as (m & Hten).
  pose proof (ServeHTTP_loop_rounds msgs (S m) (make 100) [] s) as E.
  rewrite make_length, <- Hten in E.
  unfold ServeHTTP. cbv zeta.
  rewrite E; [| exact Hfit | vm_compute; discriminate
              | rewrite app_nil_r; exact Ei].
  rewrite (ServeHTTP_loop_read_error m 0 _ (fold_left overlay msgs (make 100))
             io_EOF _ (NewRWStream
                {| inbox := [];
                   outbox := (outbox s ++ concat (repeat (frame PING) (length msgs)))
                             ++ frame PING;
                   closes := closes s |})).
  - cbn [RWStreamImp_Close w_str str str_Close Pipe_Stream Pipe_Close NewRWStream
         inbox outbox closes].
    rewrite <- app_assoc, concat_repeat_snoc. reflexivity.
  - rewrite Read_Pipe. reflexivity.
Qed.

(** X10. A frame of another type ends the exchange.  When the client sends
    [k < 10] DATA frames of at most 100 bytes each and then a header of a
    type [t <> 0], the handler writes [k + 1] PING frames, logs the
    frame-type error of the read, writes nothing more, and closes the
    conduit once; the conduit is left right after the offending header. *)
Theorem ServeHTTP_stops_at_other_frame_type
  (msgs : list (list byte)) (t l : Z) (k1 k2 : nat)
  (tail after_type after_header : list byte) (s : Pipe) :
  (length msgs < 10)%nat ->
  Forall (fun m => length m <= 100)%nat msgs ->
  inbox s = concat (map frame msgs) ++ tail ->
  decode_bytes tail = (Ok (t, k1), after_type) ->
  decode_bytes after_type = (Ok (l, k2), after_header) ->
  t <> 0 ->
  ServeHTTP s =
  (Log_NewRequest :: WriteHeader 101
     :: round_events msgs (make 100)
        ++ [Log_PingSent; Log_ReadError (IncorrectFrameType t)],
   ({| inbox := after_header;
       outbox := outbox s ++ concat (repeat (frame PING) (S (length msgs)));
       closes := S (closes s) |}, None)).
Proof.
  intros Hlen Hfit Ei Et El Ht. destruct (split_ten _ Hlen) as (m & Hten).
  pose proof (ServeHTTP_loop_rounds msgs (S m) (make 100) tail s) as E.
  rewrite make_length, <- Hten in E.
  unfold ServeHTTP. cbv zeta.
  rewrite E; [| exact Hfit | vm_compute; discriminate | exact Ei].
  rewrite (ServeHTTP_loop_read_error m 0 _ (fold_left overlay msgs (make 100))
             (IncorrectFrameType t) _ (NewRWStream
                {| inbox := after_header;
                   outbox := (outbox s ++ concat (repeat (frame PING) (length msgs)))
                             ++ frame PING;
                   closes := closes s |})).
  - cbn [RWStreamImp_Close w_str str str_Close Pipe_Stream Pipe_Close NewRWStream
         inbox outbox closes].
    rewrite <- app_assoc, concat_repeat_snoc. reflexivity.
  - rewrite Read_Pipe. cbn [inbox]. rewrite Et, El.
    destruct (Z.eqb_spec t 0); [contradiction | reflexivity].
Qed.

Lemma ServeHTTP_ten_rounds_witness :
  length (repeat PONG 10) = 10%nat /\
  Forall (fun m => length m <= 100)%nat (repeat PONG 10) /\
  inbox (incoming (concat (map frame (repeat PONG 10)) ++ frame OK)) =
    concat (map frame (repeat PONG 10)) ++ frame OK /\
  ServeHTTP (incoming (concat (map frame (repeat PONG 10)) ++ frame OK)) =
  (Log_NewRequest :: WriteHeader 101 :: round_events (repeat PONG 10) (make 100),
   ({| inbox := frame OK;
       outbox := outbox (incoming (concat (map frame (repeat PONG 10)) ++ frame OK))
                 ++ concat (repeat (frame PING) 10);
       closes := S (closes (incoming (concat (map frame (repeat PONG 10)) ++ frame OK))) |},
    None)).
Proof.
  assert (Hfit : Forall (fun m => length m <= 100)%nat (repeat PONG 10)).
  { apply Forall_forall. intros x Hx. apply repeat_spec in Hx. subst x.
    vm_compute. lia. }
  split; [reflexivity |].
  split; [exact Hfit |].
  split; [reflexivity |].
  apply (ServeHTTP_ten_rounds (repeat PONG 10) (frame OK)
           (incoming (concat (map frame (repeat PONG 10)) ++ frame OK)));
    [reflexivity | exact Hfit | reflexivity].
Defined.

Lemma ServeHTTP_client_ends_early_witness :
  (length [PONG; OK] < 10)%nat /\
  Forall (fun m => length m <= 100)%nat [PONG; OK] /\
  inbox (incoming (frame PONG ++ frame OK)) = concat (map frame [PONG; OK]) /\
  ServeHTTP (incoming (frame PONG ++ frame OK)) =
  (Log_NewRequest :: WriteHeader 101
     :: round_events [PONG; OK] (make 100) ++ [Log_PingSent; Log_ReadError io_EOF],
   ({| inbox := [];
       outbox := outbox (incoming (frame PONG ++ frame OK))
                 ++ concat (repeat (frame PING) (S (length [PONG; OK])));
       closes := S (closes (incoming (frame PONG ++ frame OK))) |}, None)).
Proof.
  assert (Hfit : Forall (fun m => length m <= 100)%nat [PONG; OK]).
  { repeat (apply Forall_cons; [vm_compute; lia |]). apply Forall_nil. }
  split; [vm_compute; lia |].
  split; [exact Hfit |].
  split; [reflexivity |].
  apply (ServeHTTP_client_ends_early [PONG; OK] (incoming (frame PONG ++ frame OK)));
    [vm_compute; lia | exact Hfit | reflexivity].
Defined.

(** The second message is shorter than the first: the line logged for it
    shows "OK" followed by the "NG" left from "PONG". *)
Example log_shows_bytes_of_earlier_message :
  firstn 4 (overlay (overlay (make 100) PONG) OK) = [x4f; x4b; x4e; x47] /\
  round_events [PONG; OK] (make 100) =
  [Log_PingSent; Log_Message (PONG ++ repeat x00 96); Sleep_1s;
   Log_PingSent; Log_Message ([x4f; x4b; x4e; x47] ++ repeat x00 96); Sleep_1s].
Proof. split; reflexivity. Qed.

Lemma ServeHTTP_stops_at_other_frame_type_witness :
  (length [PONG] < 10)%nat /\
  Forall (fun m => length m <= 100)%nat [PONG] /\
  inbox (incoming (frame PONG ++ [x01; x04] ++ PING)) =
    concat (map frame [PONG]) ++ [x01; x04] ++ PING /\
  decode_bytes ([x01; x04] ++ PING) = (Ok (1, 1%nat), [x04] ++ PING) /\
  decode_bytes ([x04] ++ PING) = (Ok (4, 1%nat), PING) /\
  1 <> 0 /\
  ServeHTTP (incoming (frame PONG ++ [x01; x04] ++ PING)) =
  (Log_NewRequest :: WriteHeader 101
     :: round_events [PONG] (make 100)
        ++ [Log_PingSent; Log_ReadError (IncorrectFrameType 1)],
   ({| inbox := PING;
       outbox := outbox (incoming (frame PONG ++ [x01; x04] ++ PING))
                 ++ concat (repeat (frame PING) (S (length [PONG])));
       closes := S (closes (incoming (frame PONG ++ [x01; x04] ++ PING))) |},
    None)).
Proof.
  assert (Hfit : Forall (fun m => length m <= 100)%nat [PONG]).
  { apply Forall_cons; [vm_compute; lia | apply Forall_nil]. }
  split; [vm_compute; lia |].
  split; [exact Hfit |].
  split; [reflexivity |].
  split; [reflexivity |].
  split; [reflexivity |].
  split; [discriminate |].
  apply (ServeHTTP_stops_at_other_frame_type [PONG] 1 4 1 1
           ([x01; x04] ++ PING) ([x04] ++ PING) PING
           (incoming (frame PONG ++ [x01; x04] ++ PING)));
    [vm_compute; lia | exact Hfit | reflexivity | reflexivity | reflexivity
    | discriminate].
Defined.

(** ** What the handler does on every input *)

(** [Read] on the pipe leaves what was written and the count of [Close]
    calls alone, and hands the buffer back with its length. *)
Lemma Read_Pipe_keeps (p : list byte) (s : Pipe) :
  let '((buf, n, err), w') := RWStreamImp_Read p (NewRWStream s) in
  outbox (str w') = outbox s /\ closes (str w') = closes s /\
  length buf = length p.
Proof.
  rewrite Read_Pipe.
  destruct (decode_bytes (inbox s)) as [[[t k1]|e] r1];
    [| cbn; repeat split].
  destruct (decode_bytes r1) as [[[l k2]|e] r2]; [| cbn; repeat split].
  destruct (negb (t =? 0)); [cbn; repeat split |].
  cbv zeta. rewrite frame_capacity. unfold Pipe_Read.
  cbn [inbox with_inbox outbox closes].
  destruct r2 as [|x r2].
  - cbn. repeat split.
  - cbn [str NewRWStream outbox closes]. repeat split.
    rewrite length_app, length_skipn, length_firstn. lia.
Qed.

(** Whatever the conduit holds: the loop does not panic, does not close the
    conduit, writes PING frames only, at most one per round and at least
    one if there is a round, and every message it logs shows a buffer as
    long as the one it started with. *)
Lemma ServeHTTP_loop_invariant (n : nat) :
  forall (buf : list byte) (s : Pipe),
    let '(evs, (w', panic)) := ServeHTTP_loop n buf (NewRWStream s) in
    panic = None /\ closes (str w') = closes s /\
    (exists j : nat,
        (j <= n)%nat /\ (0 < n -> 0 < j)%nat /\
        outbox (str w') = outbox s ++ concat (repeat (frame PING) j)) /\
    Forall (whole_buffer (length buf)) evs.
Proof.
  induction n as [|n IH]; intros buf s.
  - cbn. repeat split; [| constructor].
    exists 0%nat. cbn. rewrite app_nil_r. repeat split; lia.
  - cbn [ServeHTTP_loop]. rewrite (Write_Pipe_frame PING s PING_fits).
    set (s1 := {| inbox := inbox s; outbox := outbox s ++ frame PING;
                  closes := closes s |}).
    pose proof (Read_Pipe_keeps buf s1) as Hk.
    destruct (RWStreamImp_Read buf (NewRWStream s1)) as [[[buf' k] err] w2].
    destruct Hk as (Hout & Hcl & Hlen). cbn [outbox closes s1] in Hout, Hcl.
    destruct err as [e|].
    + repeat split; [exact Hcl | | repeat constructor].
      exists 1%nat. cbn [repeat concat]. rewrite app_nil_r.
      repeat split; [lia | lia | exact Hout].
    + rewrite (stream_is_its_conduit w2). specialize (IH buf' (str w2)).
      destruct (ServeHTTP_loop n buf' (NewRWStream (str w2)))
        as [evs [w' panic]].
      destruct IH as (Hp & Hc & (j & Hj & _ & Ho) & Hev).
      repeat split; [exact Hp | congruence | |].
      * exists (S j). repeat split; [lia | lia |].
        rewrite Ho, Hout, <- app_assoc. reflexivity.
      * rewrite Hlen in Hev.
        repeat (constructor; [cbn; try exact I; try exact Hlen |]).
        exact Hev.
Qed.

(** X11. Whatever the client sends, the handler on the pipe returns without a
    panic having closed the conduit exactly once, and what it has written
    is between one and ten PING frames and nothing else. *)
Theorem ServeHTTP_closes_once_and_writes_PINGs (s : Pipe) :
  let '(evs, (s', panic)) := ServeHTTP s in
  panic = None /\ closes s' = S (closes s) /\
  exists j : nat,
    (1 <= j <= 10)%nat /\
    outbox s' = outbox s ++ concat (repeat (frame PING) j).
Proof.
  unfold ServeHTTP. cbv zeta.
  pose proof (ServeHTTP_loop_invariant 10 (make 100) s) as Hinv.
  destruct (ServeHTTP_loop 10 (make 100) (NewRWStream s)) as [evs [w' panic]].
  destruct Hinv as (Hp & Hc & (j & Hj & Hpos & Ho) & _).
  destruct w' as [s']. cbn [RWStreamImp_Close w_str str str_Close Pipe_Stream Pipe_Close] in *.
  repeat split; [exact Hp | cbn; lia |].
  exists j. split; [lia | exact Ho].
Qed.

Lemma logged_app (evs evs' : list event) :
  logged (evs ++ evs') = logged evs ++ logged evs'.
Proof.
  induction evs as [|e evs IH]; [reflexivity|].
  destruct e; cbn [app logged]; rewrite IH; reflexivity.
Qed.

(** In the rounds in which a message arrives, the buffer logged for the
    [i]-th message is that message stored over the buffer as it was logged
    in the round before (the fresh buffer, for the first). *)
Lemma logged_round_events (msgs : list (list byte)) :
  forall (buf : list byte) (evs : list event) (i : nat) (m : list byte),
    Forall (fun x => length x <= length buf)%nat msgs ->
    nth_error msgs i = Some m ->
    let bufs := logged (round_events msgs buf ++ evs) in
    nth_error bufs i = Some (overlay (nth i (buf :: bufs) []) m) /\
    length (nth i (buf :: bufs) []) = length buf.
Proof.
  induction msgs as [|x msgs IH]; intros buf evs i m Hfit Hi.
  - destruct i; discriminate.
  - inversion Hfit as [|? ? Hx Hrest]; subst.
    cbn [round_events app logged]. cbv zeta.
    destruct i as [|i].
    + injection Hi as <-. cbn [nth_error nth]. split; reflexivity.
    + cbn [nth_error] in Hi. cbn [nth_error].
      change (nth (S i) (buf :: ?l) []) with (nth i l []).
      assert (Hrest' : Forall (fun y => length y <= length (overlay buf x))%nat msgs)
        by (rewrite overlay_length by exact Hx; exact Hrest).
      destruct (IH (overlay buf x) evs i m Hrest' Hi) as [Hn Hl].
      cbv zeta in Hn, Hl. rewrite overlay_length in Hl by exact Hx.
      split; [exact Hn | exact Hl].
Qed.

(** X12. The "Message from client" lines show the whole buffer.  When the
    client's first [k <= 10] frames are DATA frames of at most 100 bytes
    each, whatever follows them, the line logged for the [i]-th message
    shows 100 bytes: first the bytes of that message, and after them the
    bytes that the line of the round before showed at the same places (for
    the first message, zeros).  So the bytes of a longer message are logged
    again after a shorter one that follows it. *)
Theorem ServeHTTP_logs_whole_buffer
  (msgs : list (list byte)) (tail : list byte) (s : Pipe)
  (i : nat) (m : list byte) :
  (length msgs <= 10)%nat ->
  Forall (fun x => length x <= 100)%nat msgs ->
  inbox s = concat (map frame msgs) ++ tail ->
  nth_error msgs i = Some m ->
  let shown := logged (fst (ServeHTTP s)) in
  let before := nth i (make 100 :: shown) [] in
  exists b,
    nth_error shown i = Some b /\
    length b = 100%nat /\
    firstn (length m) b = m /\
    skipn (length m) b = skipn (length m) before.
Proof.
  intros Hlen Hfit Ei Hi.
  assert (Hten : exists k, (10 = length msgs + k)%nat)
    by (exists (10 - length msgs)%nat; lia).
  destruct Hten as (k & Hten).
  pose proof (ServeHTTP_loop_rounds msgs k (make 100) tail s) as E.
  rewrite make_length, <- Hten in E.
  unfold ServeHTTP. cbv zeta.
  rewrite E; [| exact Hfit | vm_compute; discriminate | exact Ei].
  destruct (ServeHTTP_loop k _ _) as [evs [w' panic]].
  destruct (RWStreamImp_Close w') as [e [closed]].
  cbn [fst logged].
  assert (Hfit' : Forall (fun x => length x <= length (make 100))%nat msgs)
    by (rewrite make_length; exact Hfit).
  destruct (logged_round_events msgs (make 100) evs i m Hfit' Hi) as [Hn Hl].
  cbv zeta in Hn, Hl. rewrite make_length in Hl.
  assert (Hm : (length m <= 100)%nat).
  { rewrite Forall_forall in Hfit. apply Hfit.
    apply nth_error_In with (n := i). exact Hi. }
  eexists. split; [exact Hn|]. unfold overlay.
  split; [|split].
  - rewrite length_app, length_skipn, Hl. lia.
  - rewrite firstn_app, Nat.sub_diag, firstn_all. cbn [firstn].
    apply app_nil_r.
  - rewrite skipn_app, Nat.sub_diag, skipn_all. reflexivity.
Qed.

Lemma ServeHTTP_logs_whole_buffer_witness :
  (length [PONG; OK] <= 10)%nat /\
  Forall (fun x => length x <= 100)%nat [PONG; OK] /\
  inbox (incoming (frame PONG ++ frame OK)) =
    concat (map frame [PONG; OK]) ++ [] /\
  nth_error [PONG; OK] 1 = Some OK /\
  let shown := logged (fst (ServeHTTP (incoming (frame PONG ++ frame OK)))) in
  let before := nth 1 (make 100 :: shown) [] in
  exists b,
    nth_error shown 1 = Some b /\
    length b = 100%nat /\
    firstn (length OK) b = OK /\
    skipn (length OK) b = skipn (length OK) before.
Proof.
  assert (Hfit : Forall (fun x => length x <= 100)%nat [PONG; OK]).
  { repeat (apply Forall_cons; [vm_compute; lia |]). apply Forall_nil. }
  split; [vm_compute; lia |].
  split; [exact Hfit |].
  split; [reflexivity |].
  split; [reflexivity |].
  apply (ServeHTTP_logs_whole_buffer [PONG; OK] [] (incoming (frame PONG ++ frame OK))
           1 OK);
    [vm_compute; lia | exact Hfit | reflexivity | reflexivity].
Defined.

(** The witness by its bytes: the second line shows "OKNG" and zeros. *)
Example second_line_shows_OKNG :
  nth_error (logged (fst (ServeHTTP (incoming (frame PONG ++ frame OK))))) 1 =
  Some ([x4f; x4b; x4e; x47] ++ repeat x00 96).
Proof. reflexivity. Qed.

(** X13. A write that the conduit cuts short ends the handler.  On the conduit
    with room for fewer bytes than the six of a PING frame, the handler logs
    the conduit's write error, makes no further write, and leaves the
    conduit holding the part of the frame that fitted: a cut-off frame. *)
Theorem ServeHTTP_write_cut_short (a : list byte) (r : nat) :
  (r < 6)%nat ->
  ServeHTTP {| accepted := a; room := r |} =
  ([Log_NewRequest; WriteHeader 101; Log_WriteError (ConduitError 1)],
   ({| accepted := a ++ firstn r (frame PING); room := 0 |}, None)).
Proof.
  intros Hr.
  do 6 (destruct r as [|r];
        [cbn; rewrite <- ?app_assoc, ?app_nil_r; reflexivity |]).
  lia.
Qed.

Lemma ServeHTTP_write_cut_short_witness :
  (3 < 6)%nat /\
  ServeHTTP {| accepted := []; room := 3 |} =
  ([Log_NewRequest; WriteHeader 101; Log_WriteError (ConduitError 1)],
   ({| accepted := [] ++ firstn 3 (frame PING); room := 0 |}, None)).
Proof.
  split; [lia | apply (ServeHTTP_write_cut_short [] 3); lia].
Defined.
